(** * util::profiler — a duration-sampling profiler

    Shallow embedding of [source/util-profiler.cpp] (obs-StreamFX) and a
    verification of the properties its specification states.

    - [std::chrono::nanoseconds] is a signed 64-bit tick count: [Z] with the
      two's-complement wrap written out ([Int64.wrap_signed]);
    - [size_t] / [uint64_t] are [Z] reduced modulo [2^64]
      ([Int64.wrap_unsigned]);
    - [double_t] is IEEE-754 binary64, taken from the axiom-free reference
      model [SpecFloat] of the standard library (round to nearest even);
    - [std::map<nanoseconds, size_t>] is an association list kept in strictly
      ascending key order, which is the order the range-[for] loops visit;
    - [std::shared_ptr<profiler>] is a handle into a store of profilers, so
      that several trackers can alias one accumulator.

    The mutex only serialises access to [_timings]; the model is sequential
    and every query works on the snapshot [copy_timings], as the code does.
    Signed overflow, which C++ leaves undefined, is modelled by the wrap of
    the two's-complement hardware. *)

From Stdlib Require Import ZArith List Bool Lia Sorted Permutation.
From Stdlib Require Import Floats.SpecFloat.
Import ListNotations.
Local Open Scope Z_scope.

(** ** Fixed-width integers *)

Module Int64.

Definition modulus : Z := 2 ^ 64.
Definition half_modulus : Z := 2 ^ 63.

(** [uint64_t] arithmetic is modular. *)
Definition wrap_unsigned (z : Z) : Z := z mod modulus.

(** [int64_t]: the value congruent to [z] in [-2^63, 2^63). *)
Definition wrap_signed (z : Z) : Z := (z + half_modulus) mod modulus - half_modulus.

Definition in_int64 (z : Z) : Prop := - half_modulus <= z < half_modulus.
Definition in_uint64 (z : Z) : Prop := 0 <= z < modulus.

End Int64.

(** ** IEEE-754 binary64 *)

Module Double.

Definition prec : Z := 53.
Definition emax : Z := 1024.

Definition double_t : Type := spec_float.

(** [double_t(n)] for an integer [n] ([int64_t] or [uint64_t]). *)
Definition of_Z (n : Z) : double_t := binary_normalize prec emax n 0 false.

Definition add : double_t -> double_t -> double_t := SFadd prec emax.
Definition sub : double_t -> double_t -> double_t := SFsub prec emax.
Definition mul : double_t -> double_t -> double_t := SFmul prec emax.
Definition div : double_t -> double_t -> double_t := SFdiv prec emax.

(** The comparison operators; each is [false] when an operand is NaN. *)
Definition eqb (a b : double_t) : bool := SFeqb a b.
Definition ltb (a b : double_t) : bool := SFltb a b.
Definition leb (a b : double_t) : bool := SFleb a b.
Definition gtb (a b : double_t) : bool := SFltb b a.
Definition geb (a b : double_t) : bool := SFleb b a.

Definition nan : double_t := S754_nan.
Definition zero : double_t := S754_zero false.
Definition one : double_t := S754_finite false 4503599627370496 (-52).
Definition half : double_t := S754_finite false 4503599627370496 (-53).
Definition twenty : double_t := S754_finite false 5629499534213120 (-48).

(** The literal [0.00005]: 0x1.a36e2eb1c432dp-15. *)
Definition lit_0_00005 : double_t := S754_finite false 7378697629483821 (-67).
(** The literal [0.0005]: 0x1.0624dd2f1a9fcp-11. *)
Definition lit_0_0005 : double_t := S754_finite false 4611686018427388 (-63).

(** [int64_t(x)]: truncation toward zero; [None] where the conversion is
    undefined (NaN, infinities, values outside [int64_t]). *)
Definition to_int64 (x : double_t) : option Z :=
  match x with
  | S754_zero _ => Some 0
  | S754_finite s m e =>
      let a := if 0 <=? e then Zpos m * 2 ^ e else Zpos m / 2 ^ (- e) in
      let v := if s then - a else a in
      if (- Int64.half_modulus <=? v) && (v <? Int64.half_modulus)
      then Some v else None
  | _ => None
  end.

(** [[0.0, 1.0]] as a set of doubles. *)
Definition in_unit (p : double_t) : Prop := leb zero p = true /\ leb p one = true.

End Double.

(** [template<typename T> bool is_equal(T a, T b, T c)], used at
    [T = double]. *)
Definition is_equal (a b c : Double.double_t) : bool :=
  Double.eqb a b || (Double.geb a (Double.sub b c) && Double.leb a (Double.add b c)).

(** ** [std::map<std::chrono::nanoseconds, size_t>] *)

(** [std::chrono::nanoseconds]: the tick count, an [int64_t]. *)
Abbreviation nanoseconds := Z (only parsing).

Module Timings.

Definition t : Type := list (nanoseconds * Z).

Definition keys (m : t) : list nanoseconds := map fst m.

(** [m.find(d)]: the mapped count, [None] for [m.end()]. *)
Fixpoint find (d : nanoseconds) (m : t) : option Z :=
  match m with
  | [] => None
  | (k, c) :: rest => if k =? d then Some c else find d rest
  end.

(** [m.insert({d, c})]: a new node at its place in key order; an existing
    key keeps its node. *)
Fixpoint insert (d : nanoseconds) (c : Z) (m : t) : t :=
  match m with
  | [] => [(d, c)]
  | (k, v) :: rest =>
      if d <? k then (d, c) :: m
      else if d =? k then m
      else (k, v) :: insert d c rest
  end.

(** [itr->second++] at the node found for [d]. *)
Fixpoint increment (d : nanoseconds) (m : t) : t :=
  match m with
  | [] => []
  | (k, v) :: rest =>
      if k =? d then (k, Int64.wrap_unsigned (v + 1)) :: rest
      else (k, v) :: increment d rest
  end.

(** [m.begin()] and [m.rbegin()]; [None] when the map is empty, where
    dereferencing them is undefined. *)
Definition begin (m : t) : option (nanoseconds * Z) := hd_error m.

Fixpoint rbegin (m : t) : option (nanoseconds * Z) :=
  match m with
  | [] => None
  | [kv] => Some kv
  | _ :: rest => rbegin rest
  end.

(** The representation invariant of the map, with the value ranges of its
    key and mapped types. *)
Definition wf (m : t) : Prop :=
  StronglySorted Z.lt (keys m)
  /\ Forall Int64.in_int64 (keys m)
  /\ Forall Int64.in_uint64 (map snd m).

End Timings.

(** ** [class util::profiler] *)

Record profiler : Type := Build_profiler { _timings : Timings.t }.

(** [util::profiler::profiler()] *)
Definition fresh : profiler := Build_profiler [].

(** [void util::profiler::track(std::chrono::nanoseconds duration)] *)
Definition track (duration : nanoseconds) (self : profiler) : profiler :=
  match Timings.find duration (_timings self) with
  | None => Build_profiler (Timings.insert duration 1 (_timings self))
  | Some _ => Build_profiler (Timings.increment duration (_timings self))
  end.

(** A run of [track] calls, first element first. *)
Definition track_all (durations : list nanoseconds) (self : profiler) : profiler :=
  fold_left (fun p d => track d p) durations self.

(** [uint64_t util::profiler::count()] *)
Definition count (self : profiler) : Z :=
  let copy_timings := _timings self in
  fold_left (fun count kv => Int64.wrap_unsigned (count + snd kv)) copy_timings 0.

(** The sum of the mapped counts, without wrap-around. *)
Fixpoint sum_counts (m : Timings.t) : Z :=
  match m with
  | [] => 0
  | kv :: rest => snd kv + sum_counts rest
  end.

(** The sum of [kv.first * kv.second] over the entries, without wrap-around. *)
Fixpoint sum_ticks (m : Timings.t) : Z :=
  match m with
  | [] => 0
  | kv :: rest => fst kv * snd kv + sum_ticks rest
  end.

(** [kv.first * kv.second]: the product is formed in the common type of
    [int64_t] and [size_t], which is unsigned, and converted back to
    [nanoseconds] when added. *)
Definition scaled (kv : nanoseconds * Z) : nanoseconds :=
  Int64.wrap_signed (Int64.wrap_unsigned (fst kv * snd kv)).

(** [std::chrono::nanoseconds util::profiler::total_duration()] *)
Definition total_duration (self : profiler) : nanoseconds :=
  let copy_timings := _timings self in
  fold_left (fun duration kv => Int64.wrap_signed (duration + scaled kv)) copy_timings 0.

(** [double_t util::profiler::average_duration()] *)
Definition average_duration (self : profiler) : Double.double_t :=
  let copy_timings := _timings self in
  let '(duration, count) :=
    fold_left
      (fun '(duration, count) kv =>
         (Int64.wrap_signed (duration + scaled kv), Int64.wrap_unsigned (count + snd kv)))
      copy_timings (0, 0) in
  Double.div (Double.of_Z duration) (Double.of_Z count).

(** *** [percentile] *)

(** The test of the by-time loop on one entry. *)
Definition by_time_accepts (smallest variance : nanoseconds) (percentile : Double.double_t)
    (k : nanoseconds) : bool :=
  let kv_pct := Double.div (Double.of_Z (Int64.wrap_signed (k - smallest)))
                           (Double.of_Z variance) in
  is_equal kv_pct percentile Double.lit_0_00005 || Double.gtb kv_pct percentile.

(** The by-time loop: [Some d] when it returns [d] from inside the loop,
    [None] when it runs off the end. *)
Fixpoint by_time_loop (smallest variance : nanoseconds) (percentile : Double.double_t)
    (m : Timings.t) : option nanoseconds :=
  match m with
  | [] => None
  | kv :: rest =>
      if by_time_accepts smallest variance percentile (fst kv) then Some (fst kv)
      else by_time_loop smallest variance percentile rest
  end.

(** The test of the by-call loop on one entry, from the running total before
    it and the entry's own count. *)
Definition by_call_accepts (calls : Z) (percentile : Double.double_t)
    (accu_calls_last c : Z) : bool :=
  let accu_calls_now := Int64.wrap_unsigned (accu_calls_last + c) in
  let percentile_last := Double.div (Double.of_Z accu_calls_last) (Double.of_Z calls) in
  let percentile_now := Double.div (Double.of_Z accu_calls_now) (Double.of_Z calls) in
  is_equal percentile percentile_now Double.lit_0_0005
  || (Double.ltb percentile_last percentile && Double.gtb percentile_now percentile).

Fixpoint by_call_loop (calls : Z) (percentile : Double.double_t) (accu_calls_now : Z)
    (m : Timings.t) : option nanoseconds :=
  match m with
  | [] => None
  | kv :: rest =>
      let accu_calls_last := accu_calls_now in
      let accu_calls_now := Int64.wrap_unsigned (accu_calls_now + snd kv) in
      if by_call_accepts calls percentile accu_calls_last (snd kv) then Some (fst kv)
      else by_call_loop calls percentile accu_calls_now rest
  end.

(** The local [threshold] of the by-time branch.  It is computed and never
    read. *)
Definition by_time_threshold (smallest variance : nanoseconds)
    (percentile : Double.double_t) : option nanoseconds :=
  option_map (fun t => Int64.wrap_signed (smallest + t))
    (Double.to_int64 (Double.mul (Double.of_Z variance) percentile)).

(** [std::chrono::nanoseconds util::profiler::percentile(double_t percentile, bool by_time)].
    [None] stands for the undefined dereference of [begin()] / [rbegin()] of
    an empty map. *)
Definition percentile (percentile : Double.double_t) (by_time : bool) (self : profiler)
    : option nanoseconds :=
  let calls := count self in
  let copy_timings := _timings self in
  if by_time then
    match Timings.begin copy_timings, Timings.rbegin copy_timings with
    | Some (smallest, _), Some (largest, _) =>
        let variance := Int64.wrap_signed (largest - smallest) in
        let threshold := by_time_threshold smallest variance percentile in
        match by_time_loop smallest variance percentile copy_timings with
        | Some d => Some d
        | None => Some (-1)
        end
    | _, _ => None
    end
  else
    if Double.eqb percentile Double.zero then
      option_map fst (Timings.begin copy_timings)
    else
      match by_call_loop calls percentile 0 copy_timings with
      | Some d => Some d
      | None => Some (-1)
      end.

(** *** The loop tests, as properties of an entry of an accumulator *)

(** The by-time test on a duration [d] of the accumulator [self]: the
    normalized position of [d] between the smallest and the largest recorded
    duration, compared with [p]. *)
Definition by_time_satisfied (self : profiler) (p : Double.double_t) (d : nanoseconds) : bool :=
  match Timings.begin (_timings self), Timings.rbegin (_timings self) with
  | Some (smallest, _), Some (largest, _) =>
      by_time_accepts smallest (Int64.wrap_signed (largest - smallest)) p d
  | _, _ => false
  end.

(** The by-call test on the entry [kv] of the accumulator [self], where [pre]
    are the entries in front of [kv]: the running total when the loop reaches
    [kv] is the number of calls recorded in [pre]. *)
Definition by_call_satisfied (self : profiler) (p : Double.double_t)
    (pre : Timings.t) (kv : nanoseconds * Z) : bool :=
  by_call_accepts (count self) p (count (Build_profiler pre)) (snd kv).

(** The scan of [percentile] is entered and no entry passes its test. *)
Definition scan_exhausted (self : profiler) (p : Double.double_t) (by_time : bool) : Prop :=
  if by_time then
    forall d, In d (Timings.keys (_timings self)) -> by_time_satisfied self p d = false
  else
    Double.eqb p Double.zero = false
    /\ forall pre kv post,
         _timings self = pre ++ kv :: post -> by_call_satisfied self p pre kv = false.

(** [percentile(p, true)] returns the smallest recorded duration that
    passes the by-time test. *)
Definition returns_smallest_by_time (self : profiler) (p : Double.double_t) : Prop :=
  exists d,
    percentile p true self = Some d
    /\ In d (Timings.keys (_timings self))
    /\ by_time_satisfied self p d = true
    /\ forall d', In d' (Timings.keys (_timings self)) ->
                  by_time_satisfied self p d' = true -> d <= d'.

(** [percentile(p, false)] returns the largest recorded duration. *)
Definition returns_largest_by_call (self : profiler) (p : Double.double_t) : Prop :=
  percentile p false self = option_map fst (Timings.rbegin (_timings self)).

(** ** [class util::profiler::instance] *)

(** A [shared_ptr<profiler>] is an index into the store; the empty pointer is
    [None]. *)
Definition handle : Type := nat.
Definition store : Type := list profiler.

Fixpoint store_update (h : handle) (f : profiler -> profiler) (st : store) : store :=
  match st, h with
  | [], _ => []
  | p :: rest, O => f p :: rest
  | p :: rest, S h' => p :: store_update h' f rest
  end.

Record instance : Type := Build_instance {
  _parent : option handle;
  _start : Z
}.

(** [instance::instance(std::shared_ptr<profiler> parent)], at clock reading [now]. *)
Definition instance_new (parent : option handle) (now : Z) : instance :=
  Build_instance parent now.

(** [std::shared_ptr<instance> util::profiler::track()] called on the
    profiler held by [self], at clock reading [now]. *)
Definition track_scope (self : handle) (now : Z) : instance :=
  instance_new (Some self) now.

(** [instance::~instance()], at clock reading [now]. *)
Definition instance_release (self : instance) (now : Z) (st : store) : store :=
  let dur := Int64.wrap_signed (now - _start self) in
  match _parent self with
  | Some h => store_update h (track dur) st
  | None => st
  end.

(** [void instance::cancel()] *)
Definition cancel (self : instance) : instance :=
  Build_instance None (_start self).

(** [void instance::reparent(std::shared_ptr<profiler> parent)]: the body is
    [parent = parent;], an assignment of the by-value argument to itself. *)
Definition reparent (self : instance) (parent : option handle) : instance :=
  let parent := parent in
  self.

(** * Facts about the binary64 model *)

(** ** Conversion of 64-bit integers

    Every nonzero integer of magnitude below [2^64] converts to a finite,
    nonzero double: the conversion neither overflows nor rounds to zero. *)

Lemma digits2_pos_size p : digits2_pos p = Pos.size p.
Proof. induction p; simpl; congruence. Qed.

Lemma Zdigits2_bounds p :
  2 ^ (Zdigits2 (Zpos p) - 1) <= Zpos p < 2 ^ Zdigits2 (Zpos p).
Proof.
  unfold Zdigits2. rewrite digits2_pos_size.
  pose proof (Pos.size_gt p) as Hgt. pose proof (Pos.size_le p) as Hle.
  apply Pos2Z.pos_lt_pos in Hgt. apply Pos2Z.pos_le_pos in Hle.
  rewrite Pos2Z.inj_pow in Hgt, Hle.
  replace (Zpos p~0) with (2 * Zpos p) in Hle by reflexivity.
  replace (2 ^ Zpos (Pos.size p)) with (2 * 2 ^ (Zpos (Pos.size p) - 1)) in Hle.
  2:{ rewrite <- Z.pow_succ_r by lia. f_equal. lia. }
  lia.
Qed.

Lemma shr_1_m mrs : 0 <= shr_m mrs -> shr_m (shr_1 mrs) = shr_m mrs / 2.
Proof.
  destruct mrs as [m r s]. simpl. intros Hm.
  destruct m as [|[p|p|]|p]; simpl; try reflexivity; try lia.
  - rewrite Pos2Z.inj_xI. apply Z.div_unique with (r := 1); lia.
  - rewrite Pos2Z.inj_xO. apply Z.div_unique with (r := 0); lia.
Qed.

Lemma iter_shr_1_m k : forall mrs,
  0 <= shr_m mrs -> shr_m (iter_pos shr_1 k mrs) = shr_m mrs / 2 ^ Zpos k.
Proof.
  induction k as [k IH|k IH|]; intros mrs Hm; simpl iter_pos.
  - assert (H1 : 0 <= shr_m (shr_1 mrs)).
    { rewrite shr_1_m by assumption. apply Z.div_pos; lia. }
    assert (H2 : 0 <= shr_m (iter_pos shr_1 k (shr_1 mrs))).
    { rewrite IH by assumption. apply Z.div_pos; [assumption|]. apply Z.pow_pos_nonneg; lia. }
    rewrite IH, IH, shr_1_m by assumption.
    rewrite !Z.div_div by (try apply Z.pow_pos_nonneg; lia).
    f_equal. replace (Zpos k~1) with (1 + Zpos k + Zpos k) by lia.
    rewrite !Z.pow_add_r by lia. lia.
  - assert (H2 : 0 <= shr_m (iter_pos shr_1 k mrs)).
    { rewrite IH by assumption. apply Z.div_pos; [assumption|]. apply Z.pow_pos_nonneg; lia. }
    rewrite IH, IH by assumption.
    rewrite !Z.div_div by (try apply Z.pow_pos_nonneg; lia).
    f_equal. replace (Zpos k~0) with (Zpos k + Zpos k) by lia.
    rewrite !Z.pow_add_r by lia. lia.
  - apply shr_1_m. assumption.
Qed.

Lemma iter_xO_mul k : forall p, Zpos (Pos.iter xO p k) = Zpos p * 2 ^ Zpos k.
Proof.
  induction k as [|k IH] using Pos.peano_ind; intros p.
  - simpl. lia.
  - rewrite Pos.iter_succ, Pos2Z.inj_xO, IH, Pos2Z.inj_succ, Z.pow_succ_r by lia. lia.
Qed.

(** [shr_fexp] on a mantissa of at least 53 bits, away from the subnormal
    range, keeps exactly the 53 leading bits. *)
Lemma shr_fexp_normal p ex l :
  2 ^ 52 <= Zpos p -> -1074 <= ex ->
  let r := shr_fexp Double.prec Double.emax (Zpos p) ex l in
  2 ^ 52 <= shr_m (fst r) < 2 ^ 53 /\ snd r = ex + (Zdigits2 (Zpos p) - 53).
Proof.
  intros Hp Hex.
  pose proof (Zdigits2_bounds p) as [Hlo Hhi].
  set (D := Zdigits2 (Zpos p)) in *.
  assert (HD : 53 <= D).
  { destruct (Z_lt_le_dec D 53) as [Hlt|]; [|assumption].
    assert (2 ^ D <= 2 ^ 52) by (apply Z.pow_le_mono_r; lia). lia. }
  unfold shr_fexp, fexp, emin, Double.prec, Double.emax. fold D.
  replace (Z.max (D + ex - 53) (3 - 1024 - 53) - ex) with (D - 53) by lia.
  assert (Hm : shr_m (shr_record_of_loc (Zpos p) l) = Zpos p).
  { destruct l as [|[| |]]; reflexivity. }
  destruct (D - 53) as [|n|n] eqn:En; try lia; unfold shr; cbn [fst snd].
  - rewrite Hm. split; [|lia]. split; [lia|].
    replace D with 53 in Hhi by lia. exact Hhi.
  - rewrite iter_shr_1_m, Hm by (rewrite Hm; lia). split; [|lia].
    assert (Hn : 0 < 2 ^ Zpos n) by (apply Z.pow_pos_nonneg; lia).
    assert (E1 : 2 ^ Zpos n * 2 ^ 52 = 2 ^ (D - 1)).
    { rewrite <- Z.pow_add_r by lia. f_equal. lia. }
    assert (E2 : 2 ^ Zpos n * 2 ^ 53 = 2 ^ D).
    { rewrite <- Z.pow_add_r by lia. f_equal. lia. }
    split.
    + apply Z.div_le_lower_bound; [assumption|]. rewrite E1. assumption.
    + apply Z.div_lt_upper_bound; [assumption|]. rewrite E2. assumption.
Qed.

Lemma Zdigits2_upper p n : 0 <= n -> Zpos p <= 2 ^ n -> Zdigits2 (Zpos p) <= n + 1.
Proof.
  intros Hn Hp. pose proof (Zdigits2_bounds p) as [Hlo _].
  destruct (Z_le_gt_dec (Zdigits2 (Zpos p)) (n + 1)) as [|Hgt]; [assumption|].
  assert (2 ^ (n + 1) <= 2 ^ (Zdigits2 (Zpos p) - 1)) by (apply Z.pow_le_mono_r; lia).
  rewrite Z.pow_add_r in H by lia.
  assert (0 < 2 ^ n) by (apply Z.pow_pos_nonneg; lia). lia.
Qed.

Lemma Zdigits2_lower p n : 0 <= n -> 2 ^ n <= Zpos p -> n + 1 <= Zdigits2 (Zpos p).
Proof.
  intros Hn Hp. pose proof (Zdigits2_bounds p) as [_ Hhi].
  destruct (Z_le_gt_dec (n + 1) (Zdigits2 (Zpos p))) as [|Hgt]; [assumption|].
  assert (2 ^ Zdigits2 (Zpos p) <= 2 ^ n) by (apply Z.pow_le_mono_r; lia). lia.
Qed.

Lemma round_nearest_even_bounds m l :
  m <= round_nearest_even m l <= m + 1.
Proof.
  unfold round_nearest_even. destruct l as [|[| |]]; try lia.
  destruct (Z.even m); lia.
Qed.

Lemma binary_round_aux_finite sx p ex lx :
  2 ^ 52 <= Zpos p < 2 ^ 64 -> -1074 <= ex <= 0 ->
  exists m e, binary_round_aux Double.prec Double.emax sx (Zpos p) ex lx = S754_finite sx m e.
Proof.
  intros [Hlo Hhi] Hex. unfold binary_round_aux.
  pose proof (shr_fexp_normal p ex lx Hlo ltac:(lia)) as H1. cbv zeta in H1.
  assert (HD : 53 <= Zdigits2 (Zpos p) <= 64).
  { split; [apply (Zdigits2_lower p 52); lia|].
    pose proof (Zdigits2_bounds p) as [Hl _].
    destruct (Z_le_gt_dec (Zdigits2 (Zpos p)) 64) as [|Hgt]; [assumption|].
    assert (2 ^ 64 <= 2 ^ (Zdigits2 (Zpos p) - 1)) by (apply Z.pow_le_mono_r; lia). lia. }
  destruct (shr_fexp Double.prec Double.emax (Zpos p) ex lx) as [mrs' e'].
  cbn [fst snd] in H1. destruct H1 as [Hm1 He1].
  pose proof (round_nearest_even_bounds (shr_m mrs') (loc_of_shr_record mrs')) as Hr.
  destruct (round_nearest_even (shr_m mrs') (loc_of_shr_record mrs')) as [|q|q] eqn:Eq; try lia.
  pose proof (shr_fexp_normal q e' loc_Exact ltac:(lia) ltac:(lia)) as H2. cbv zeta in H2.
  assert (HD2 : 53 <= Zdigits2 (Zpos q) <= 54).
  { split; [apply (Zdigits2_lower q 52); lia | apply (Zdigits2_upper q 53); lia]. }
  destruct (shr_fexp Double.prec Double.emax (Zpos q) e' loc_Exact) as [mrs'' e''].
  cbn [fst snd] in H2. destruct H2 as [Hm2 He2].
  destruct (shr_m mrs'') as [|m|m]; try lia.
  replace (e'' <=? Double.emax - Double.prec) with true.
  - eauto.
  - symmetry. apply Z.leb_le. unfold Double.emax, Double.prec. lia.
Qed.

Lemma binary_round_finite sx p :
  Zpos p < 2 ^ 64 ->
  exists m e, binary_round Double.prec Double.emax sx p 0 = S754_finite sx m e.
Proof.
  intros Hp. unfold binary_round.
  pose proof (Zdigits2_bounds p) as [Hlo Hhi]. unfold Zdigits2 in Hlo, Hhi.
  set (D := Zpos (digits2_pos p)) in *.
  unfold shl_align, fexp, emin, Double.prec, Double.emax.
  replace (Z.max (D + 0 - 53) (3 - 1024 - 53) - 0) with (D - 53) by lia.
  destruct (D - 53) as [|n|n] eqn:En.
  - apply binary_round_aux_finite; [|lia]. replace (D - 1) with 52 in Hlo by lia. lia.
  - apply binary_round_aux_finite; [|lia].
    assert (2 ^ 52 <= 2 ^ (D - 1)) by (apply Z.pow_le_mono_r; lia). lia.
  - assert (Ee : IntDef.Z.max (D + 0 - 53) (3 - 1024 - 53) = Z.neg n).
    { change (IntDef.Z.max (D + 0 - 53) (3 - 1024 - 53)) with (Z.max (D + 0 - 53) (-1074)). lia. }
    rewrite Ee.
    assert (E1 : 2 ^ (D - 1) * 2 ^ Zpos n = 2 ^ 52).
    { rewrite <- Z.pow_add_r by lia. f_equal. lia. }
    assert (E2 : 2 ^ D * 2 ^ Zpos n = 2 ^ 53).
    { rewrite <- Z.pow_add_r by lia. f_equal. lia. }
    assert (Hn : 0 < 2 ^ Zpos n) by (apply Z.pow_pos_nonneg; lia).
    apply binary_round_aux_finite; [|lia].
    rewrite iter_xO_mul. nia.
Qed.

Lemma of_Z_finite n :
  n <> 0 -> - 2 ^ 64 < n < 2 ^ 64 ->
  exists s m e, Double.of_Z n = S754_finite s m e.
Proof.
  intros Hn Hr. unfold Double.of_Z, binary_normalize.
  destruct n as [|p|p]; [congruence| |].
  - exists false. apply binary_round_finite. lia.
  - exists true. apply binary_round_finite. lia.
Qed.

(** ** Division of a finite double by itself *)

Lemma new_location_zero d : new_location d 0 = loc_Exact.
Proof. unfold new_location, new_location_even, new_location_odd. destruct (Z.even d); reflexivity. Qed.

Lemma div_eucl_multiple a b : b <> 0 -> Z.div_eucl (b * a) b = (a, 0).
Proof.
  intros Hb.
  assert (E : Z.div_eucl (b * a) b = ((b * a) / b, (b * a) mod b)).
  { unfold Z.div, Z.modulo. destruct (Z.div_eucl (b * a) b); reflexivity. }
  rewrite E, (Z.mul_comm b a), Z.div_mul, Z.mod_mul by assumption. reflexivity.
Qed.

Lemma div_self s m e :
  Double.div (S754_finite s m e) (S754_finite s m e) = Double.one.
Proof.
  unfold Double.div, SFdiv, SFdiv_core_binary.
  replace (Zdigits2 (Zpos m) + e - (Zdigits2 (Zpos m) + e)) with 0 by lia.
  replace (e - e) with 0 by lia.
  change (Z.min (fexp Double.prec Double.emax 0) 0) with (-53).
  change (0 - -53) with 53.
  cbv iota beta.
  rewrite Z.shiftl_mul_pow2 by lia.
  rewrite div_eucl_multiple by lia.
  rewrite new_location_zero, xorb_nilpotent.
  reflexivity.
Qed.

Lemma div_of_Z_self n :
  n <> 0 -> - 2 ^ 64 < n < 2 ^ 64 ->
  Double.div (Double.of_Z n) (Double.of_Z n) = Double.one.
Proof.
  intros Hn Hr. destruct (of_Z_finite n Hn Hr) as (s & m & e & E).
  rewrite E. apply div_self.
Qed.

Lemma div_zero_zero : Double.div (Double.of_Z 0) (Double.of_Z 0) = Double.nan.
Proof. reflexivity. Qed.

(** ** Comparisons *)

Lemma SFcompare_Eq_sym a b : SFcompare a b = Some Eq -> SFcompare b a = Some Eq.
Proof.
  destruct a as [sa|sa| |sa ma ea], b as [sb|sb| |sb mb eb]; simpl;
    try destruct sa; try destruct sb; try discriminate; try reflexivity;
    change (PosDef.Pos.compare_cont Eq ma mb) with (Pos.compare ma mb);
    change (PosDef.Pos.compare_cont Eq mb ma) with (Pos.compare mb ma);
    rewrite (Z.compare_antisym ea eb), (Pos.compare_antisym ma mb);
    destruct (ea ?= eb); try discriminate; simpl;
    destruct (ma ?= mb)%positive; try discriminate; reflexivity.
Qed.

(** A NaN on the left makes [is_equal] false, whatever it is compared with. *)
Lemma is_equal_nan_l b c : is_equal Double.nan b c = false.
Proof.
  unfold is_equal, Double.eqb, Double.geb, Double.leb, SFeqb, SFleb.
  destruct (Double.sub b c); reflexivity.
Qed.

Lemma gtb_nan_l b : Double.gtb Double.nan b = false.
Proof. unfold Double.gtb, SFltb. destruct b; reflexivity. Qed.

(** A normalized position of exactly [1.0] passes the by-time test for
    every [p <= 1.0]. *)
Lemma one_at_or_above p c :
  Double.leb p Double.one = true ->
  is_equal Double.one p c || Double.gtb Double.one p = true.
Proof.
  unfold Double.leb, SFleb, is_equal, Double.eqb, SFeqb, Double.gtb, SFltb.
  destruct (SFcompare p Double.one) as [[| |]|] eqn:E; try discriminate; intros _.
  - rewrite (SFcompare_Eq_sym _ _ E). reflexivity.
  - rewrite !orb_true_r. reflexivity.
Qed.

(** A [p] that [is_equal] accepts next to [1.0] is not zero. *)
Lemma near_one_nonzero p :
  is_equal p Double.one Double.lit_0_0005 = true -> Double.eqb p Double.zero = false.
Proof.
  intros H. destruct p as [s|s| |s m e].
  - destruct s; vm_compute in H; discriminate.
  - destruct s; reflexivity.
  - reflexivity.
  - destruct s; reflexivity.
Qed.

(** * Facts about the fixed-width integers *)

Lemma modulus_eq : Int64.modulus = 18446744073709551616.
Proof. reflexivity. Qed.

Lemma half_modulus_eq : Int64.half_modulus = 9223372036854775808.
Proof. reflexivity. Qed.

Ltac int64_unfold :=
  unfold Int64.in_int64, Int64.in_uint64, Int64.wrap_signed, Int64.wrap_unsigned in *;
  rewrite ?modulus_eq, ?half_modulus_eq in *.

Lemma wrap_unsigned_range z : Int64.in_uint64 (Int64.wrap_unsigned z).
Proof. int64_unfold. apply Z.mod_pos_bound. lia. Qed.

Lemma wrap_unsigned_small z : Int64.in_uint64 z -> Int64.wrap_unsigned z = z.
Proof. int64_unfold. intros H. apply Z.mod_small. lia. Qed.

Lemma wrap_unsigned_add_l a b :
  Int64.wrap_unsigned (Int64.wrap_unsigned a + b) = Int64.wrap_unsigned (a + b).
Proof. unfold Int64.wrap_unsigned. apply Z.add_mod_idemp_l. discriminate. Qed.

Lemma wrap_signed_range z : Int64.in_int64 (Int64.wrap_signed z).
Proof.
  int64_unfold.
  pose proof (Z.mod_pos_bound (z + 9223372036854775808) 18446744073709551616 ltac:(lia)). lia.
Qed.

Lemma wrap_signed_small z : Int64.in_int64 z -> Int64.wrap_signed z = z.
Proof. int64_unfold. intros H. rewrite Z.mod_small; lia. Qed.

(** The difference of two distinct [int64_t] values is not zero, even when
    the subtraction wraps. *)
Lemma wrap_signed_sub_nonzero a b :
  Int64.in_int64 a -> Int64.in_int64 b -> a < b -> Int64.wrap_signed (b - a) <> 0.
Proof.
  int64_unfold. intros Ha Hb Hlt E.
  destruct (Z_lt_le_dec (b - a) 9223372036854775808) as [Hs|Hs].
  - rewrite Z.mod_small in E; lia.
  - replace (b - a + 9223372036854775808)
      with ((b - a - 9223372036854775808) + 1 * 18446744073709551616) in E by lia.
    rewrite Z.mod_add, Z.mod_small in E; lia.
Qed.

(** * Facts about the map *)

Section TimingsFacts.

Import Timings.

Lemma find_In_keys d m : find d m <> None <-> In d (keys m).
Proof.
  induction m as [|[k c] rest IH]; simpl.
  - split; [congruence | tauto].
  - destruct (Z.eqb_spec k d) as [->|Hne].
    + split; [auto | congruence].
    + rewrite IH. split; [auto | intros [E|H]; [congruence | exact H]].
Qed.

Lemma find_insert d d' m :
  find d m = None ->
  find d' (insert d 1 m) = if d =? d' then Some 1 else find d' m.
Proof.
  induction m as [|[k c] rest IH]; simpl; intros Hf.
  - reflexivity.
  - destruct (Z.eqb_spec k d) as [->|Hne]; [discriminate|].
    destruct (Z.ltb_spec d k) as [Hlt|Hge]; simpl.
    + reflexivity.
    + destruct (Z.eqb_spec d k) as [->|_]; [congruence|]. simpl.
      rewrite (IH Hf).
      destruct (Z.eqb_spec k d') as [->|Hkd'], (Z.eqb_spec d d') as [->|Hdd'];
        congruence.
Qed.

Lemma find_increment d d' c m :
  find d m = Some c ->
  find d' (increment d m)
  = if d =? d' then Some (Int64.wrap_unsigned (c + 1)) else find d' m.
Proof.
  induction m as [|[k v] rest IH]; simpl; intros Hf.
  - discriminate.
  - destruct (Z.eqb_spec k d) as [->|Hne]; simpl.
    + injection Hf as ->. destruct (d =? d'); reflexivity.
    + rewrite (IH Hf).
      destruct (Z.eqb_spec k d') as [->|Hkd'], (Z.eqb_spec d d') as [->|Hdd'];
        congruence.
Qed.

Lemma keys_increment d m : keys (increment d m) = keys m.
Proof.
  induction m as [|[k v] rest IH]; simpl; [reflexivity|].
  destruct (k =? d); simpl; [reflexivity | f_equal; exact IH].
Qed.

Lemma In_keys_insert x d c m : In x (keys (insert d c m)) <-> x = d \/ In x (keys m).
Proof.
  induction m as [|[k v] rest IH]; simpl.
  - intuition congruence.
  - destruct (Z.ltb_spec d k) as [Hlt|Hge]; simpl; [intuition congruence|].
    destruct (Z.eqb_spec d k) as [->|Hne]; simpl; [intuition congruence|].
    rewrite IH. intuition congruence.
Qed.

Lemma insert_sorted d c m :
  StronglySorted Z.lt (keys m) -> StronglySorted Z.lt (keys (insert d c m)).
Proof.
  induction m as [|[k v] rest IH]; simpl; intros Hs.
  - constructor; constructor.
  - destruct (Z.ltb_spec d k) as [Hlt|Hge]; simpl.
    + constructor; [exact Hs|]. inversion Hs as [|? ? _ Hall]; subst.
      constructor; [exact Hlt|].
      apply Forall_forall. intros x Hx. rewrite Forall_forall in Hall.
      specialize (Hall x Hx). lia.
    + destruct (Z.eqb_spec d k) as [->|Hne]; simpl; [exact Hs|].
      inversion Hs as [|? ? Hrest Hall]; subst.
      constructor; [exact (IH Hrest)|].
      apply Forall_forall. intros x Hx. apply In_keys_insert in Hx.
      rewrite Forall_forall in Hall. destruct Hx as [->|Hx]; [lia | exact (Hall x Hx)].
Qed.

Lemma sorted_NoDup l : StronglySorted Z.lt l -> NoDup l.
Proof.
  induction 1 as [|a l Hs IH Hall]; constructor; [|exact IH].
  intros Hin. rewrite Forall_forall in Hall. specialize (Hall a Hin). lia.
Qed.

(** The first key of a sorted map is its least key. *)
Lemma sorted_head_least k l x :
  StronglySorted Z.lt (k :: l) -> In x (k :: l) -> k <= x.
Proof.
  intros Hs [->|Hin]; [lia|].
  inversion Hs as [|? ? _ Hall]; subst. rewrite Forall_forall in Hall.
  specialize (Hall x Hin). lia.
Qed.

Lemma insert_range d c m :
  Int64.in_int64 d -> Int64.in_uint64 c ->
  Forall Int64.in_int64 (keys m) /\ Forall Int64.in_uint64 (map snd m) ->
  Forall Int64.in_int64 (keys (insert d c m))
  /\ Forall Int64.in_uint64 (map snd (insert d c m)).
Proof.
  intros Hd Hc. induction m as [|[k v] rest IH]; simpl; intros [Hk Hv].
  - split; constructor; auto.
  - destruct (d <? k); simpl; [split; constructor; assumption|].
    destruct (d =? k); simpl; [split; assumption|].
    inversion Hk; inversion Hv; subst.
    destruct IH as [IHk IHv]; [split; assumption|].
    split; constructor; assumption.
Qed.

Lemma increment_range d m :
  Forall Int64.in_uint64 (map snd m) -> Forall Int64.in_uint64 (map snd (increment d m)).
Proof.
  induction m as [|[k v] rest IH]; simpl; intros Hv; [constructor|].
  inversion Hv; subst.
  destruct (k =? d); simpl; constructor; auto using wrap_unsigned_range.
Qed.

Lemma rbegin_last_key m kv :
  rbegin m = Some kv -> exists pre, m = pre ++ [kv].
Proof.
  induction m as [|a [|b rest] IH]; simpl; intros H.
  - discriminate.
  - injection H as ->. exists []. reflexivity.
  - destruct (IH H) as [pre E]. exists (a :: pre). simpl. rewrite <- E. reflexivity.
Qed.

Lemma rbegin_app pre kv : rbegin (pre ++ [kv]) = Some kv.
Proof.
  induction pre as [|a pre IH]; simpl; [reflexivity|].
  destruct (pre ++ [kv]) eqn:E; [destruct pre; discriminate | exact IH].
Qed.

End TimingsFacts.

(** * Facts about [track], [count] and [total_duration] *)

Lemma track_sorted d self :
  StronglySorted Z.lt (Timings.keys (_timings self)) ->
  StronglySorted Z.lt (Timings.keys (_timings (track d self))).
Proof.
  intros Hs. unfold track. destruct (Timings.find d (_timings self)); simpl.
  - rewrite keys_increment. exact Hs.
  - apply insert_sorted. exact Hs.
Qed.

Lemma track_wf d self :
  Int64.in_int64 d -> Timings.wf (_timings self) -> Timings.wf (_timings (track d self)).
Proof.
  intros Hd (Hs & Hk & Hv). split; [apply track_sorted; exact Hs|].
  unfold track. destruct (Timings.find d (_timings self)); simpl.
  - rewrite keys_increment. split; [exact Hk | apply increment_range; exact Hv].
  - apply insert_range; [exact Hd | int64_unfold; lia | split; assumption].
Qed.

Lemma track_all_app ds1 ds2 self :
  track_all (ds1 ++ ds2) self = track_all ds2 (track_all ds1 self).
Proof. unfold track_all. apply fold_left_app. Qed.

Lemma track_all_sorted ds : forall self,
  StronglySorted Z.lt (Timings.keys (_timings self)) ->
  StronglySorted Z.lt (Timings.keys (_timings (track_all ds self))).
Proof.
  induction ds as [|d ds IH]; intros self Hs; simpl; [exact Hs|].
  apply IH, track_sorted, Hs.
Qed.

(** Every accumulator reached from a fresh one by [track] calls satisfies the
    representation invariant. *)
Lemma track_all_wf ds : forall self,
  Forall Int64.in_int64 ds -> Timings.wf (_timings self) ->
  Timings.wf (_timings (track_all ds self)).
Proof.
  induction ds as [|d ds IH]; intros self Hds Hwf; simpl; [exact Hwf|].
  inversion Hds; subst. apply IH; [assumption|]. apply track_wf; assumption.
Qed.

Lemma fresh_wf : Timings.wf (_timings fresh).
Proof. repeat split; constructor. Qed.

(** The lookup after one [track] call. *)
Lemma find_track d d' self :
  Timings.find d' (_timings (track d self))
  = if d =? d'
    then Some match Timings.find d (_timings self) with
              | None => 1
              | Some c => Int64.wrap_unsigned (c + 1)
              end
    else Timings.find d' (_timings self).
Proof.
  unfold track. destruct (Timings.find d (_timings self)) as [c|] eqn:E; simpl.
  - apply find_increment. exact E.
  - apply find_insert. exact E.
Qed.

Lemma count_loop m : forall a,
  Int64.in_uint64 a ->
  fold_left (fun count kv => Int64.wrap_unsigned (count + snd kv)) m a
  = Int64.wrap_unsigned (a + sum_counts m).
Proof.
  induction m as [|[k c] rest IH]; intros a Ha; simpl.
  - rewrite Z.add_0_r, wrap_unsigned_small; auto.
  - rewrite IH by apply wrap_unsigned_range.
    rewrite wrap_unsigned_add_l. f_equal. lia.
Qed.

Lemma count_sum self : count self = Int64.wrap_unsigned (sum_counts (_timings self)).
Proof. unfold count. rewrite count_loop; [reflexivity | int64_unfold; lia]. Qed.

Lemma count_app pre post :
  count (Build_profiler (pre ++ post))
  = fold_left (fun count kv => Int64.wrap_unsigned (count + snd kv)) post
      (count (Build_profiler pre)).
Proof. unfold count. simpl. apply fold_left_app. Qed.

Lemma sum_counts_insert d m :
  Timings.find d m = None -> sum_counts (Timings.insert d 1 m) = sum_counts m + 1.
Proof.
  induction m as [|[k c] rest IH]; cbn [Timings.find Timings.insert]; intros Hf;
    [cbn [sum_counts snd]; lia|].
  destruct (Z.eqb_spec k d) as [->|Hne]; [discriminate|].
  destruct (d <? k); cbn [sum_counts snd]; [lia|].
  destruct (Z.eqb_spec d k) as [->|_]; [congruence|].
  cbn [sum_counts snd]. rewrite IH by exact Hf. lia.
Qed.

Lemma sum_counts_increment d c m :
  Timings.find d m = Some c ->
  Int64.wrap_unsigned (sum_counts (Timings.increment d m))
  = Int64.wrap_unsigned (sum_counts m + 1).
Proof.
  induction m as [|[k v] rest IH]; cbn [Timings.find Timings.increment]; intros Hf;
    [discriminate|].
  destruct (Z.eqb_spec k d) as [->|Hne]; cbn [sum_counts snd].
  - rewrite wrap_unsigned_add_l. f_equal. lia.
  - specialize (IH Hf). unfold Int64.wrap_unsigned in *.
    rewrite Z.add_mod, IH, <- Z.add_mod by discriminate. f_equal. lia.
Qed.

Lemma count_track d self : count (track d self) = Int64.wrap_unsigned (count self + 1).
Proof.
  rewrite !count_sum, wrap_unsigned_add_l. unfold track.
  destruct (Timings.find d (_timings self)) as [c|] eqn:E; simpl.
  - apply (sum_counts_increment d c). exact E.
  - rewrite sum_counts_insert by exact E. reflexivity.
Qed.

Lemma count_track_all ds : forall self,
  count (track_all ds self) = Int64.wrap_unsigned (count self + Z.of_nat (length ds)).
Proof.
  induction ds as [|d ds IH]; intros self; simpl.
  - rewrite Z.add_0_r. symmetry. apply wrap_unsigned_small.
    rewrite count_sum. apply wrap_unsigned_range.
  - rewrite IH, count_track, wrap_unsigned_add_l. f_equal. lia.
Qed.

(** The lookup after a run of [track] calls on a fresh accumulator counts the
    occurrences of the duration in the run. *)
Lemma find_track_all ds d :
  Timings.find d (_timings (track_all ds fresh))
  = match count_occ Z.eq_dec ds d with
    | O => None
    | S n => Some (Int64.wrap_unsigned (Z.of_nat (S n)))
    end.
Proof.
  induction ds as [|x ds IH] using rev_ind; [reflexivity|].
  rewrite track_all_app. cbn [track_all fold_left].
  rewrite find_track, count_occ_app. cbn [count_occ].
  fold (track_all ds fresh). set (n := count_occ Z.eq_dec ds d) in *.
  destruct (Z.eqb_spec x d) as [->|Hne].
  - destruct (Z.eq_dec d d) as [_|]; [|congruence]. rewrite IH.
    rewrite Nat.add_1_r.
    destruct n as [|n]; [reflexivity|].
    rewrite wrap_unsigned_add_l. do 2 f_equal. lia.
  - destruct (Z.eq_dec x d) as [|_]; [congruence|]. rewrite Nat.add_0_r. exact IH.
Qed.

(** [average_duration] runs the loops of [total_duration] and [count] side
    by side. *)
Lemma average_loop m : forall duration count,
  fold_left
    (fun '(duration, count) (kv : nanoseconds * Z) =>
       (Int64.wrap_signed (duration + scaled kv), Int64.wrap_unsigned (count + snd kv)))
    m (duration, count)
  = (fold_left (fun duration kv => Int64.wrap_signed (duration + scaled kv)) m duration,
     fold_left (fun count kv => Int64.wrap_unsigned (count + snd kv)) m count).
Proof.
  induction m as [|kv rest IH]; intros duration count; simpl; [reflexivity|].
  apply IH.
Qed.

(** * Facts about the two scans *)

Lemma sorted_app_inv l1 x l2 :
  StronglySorted Z.lt (l1 ++ x :: l2) ->
  (forall a, In a l1 -> a < x) /\ (forall b, In b l2 -> x < b).
Proof.
  induction l1 as [|y l1 IH]; simpl; intros Hs.
  - inversion Hs as [|? ? _ Hall]; subst. rewrite Forall_forall in Hall.
    split; [intros a [] | exact Hall].
  - inversion Hs as [|? ? Hrest Hall]; subst. rewrite Forall_forall in Hall.
    destruct (IH Hrest) as [H1 H2]. split; [|exact H2].
    intros a [->|Ha]; [|exact (H1 a Ha)].
    apply Hall, in_or_app. right. left. reflexivity.
Qed.

Lemma keys_app (l1 l2 : Timings.t) : Timings.keys (l1 ++ l2) = Timings.keys l1 ++ Timings.keys l2.
Proof. apply map_app. Qed.

(** In a sorted map, an entry with a smaller key stands in front. *)
Lemma sorted_split_lt (l1 : Timings.t) : forall l1' a b l2 l2',
  StronglySorted Z.lt (Timings.keys (l1 ++ a :: l2)) ->
  l1 ++ a :: l2 = l1' ++ b :: l2' -> fst b < fst a ->
  exists r, l1 = l1' ++ b :: r.
Proof.
  induction l1 as [|x l1 IH]; intros l1' a b l2 l2' Hs E Hlt.
  - destruct l1' as [|y l1']; simpl in E.
    + injection E as -> _. lia.
    + injection E as -> E. subst l2. simpl in Hs.
      rewrite keys_app in Hs. simpl in Hs.
      inversion Hs as [|? ? _ Hall]; subst. rewrite Forall_forall in Hall.
      assert (fst y < fst b) by (apply Hall, in_or_app; right; left; reflexivity). lia.
  - destruct l1' as [|y l1']; simpl in E.
    + injection E as -> _. exists l1. reflexivity.
    + injection E as -> E. simpl in Hs. inversion Hs as [|? ? Hrest _]; subst.
      destruct (IH l1' a b l2 l2' Hrest E Hlt) as [r ->]. exists r. reflexivity.
Qed.

(** In a sorted map, every entry that is not the last has a key below the
    last one. *)
Lemma sorted_before_last (pre : Timings.t) kv post last :
  StronglySorted Z.lt (Timings.keys (pre ++ kv :: post)) ->
  Timings.rbegin (pre ++ kv :: post) = Some last -> post <> [] ->
  fst kv < fst last.
Proof.
  intros Hs Hl Hpost.
  destruct (exists_last Hpost) as (q & z & ->).
  replace (pre ++ kv :: q ++ [z]) with ((pre ++ kv :: q) ++ [z]) in Hl
    by (rewrite <- app_assoc; reflexivity).
  rewrite rbegin_app in Hl. injection Hl as ->.
  rewrite keys_app in Hs. simpl in Hs.
  apply sorted_app_inv in Hs. destruct Hs as [_ Hs].
  apply Hs. rewrite keys_app. apply in_or_app. right. left. reflexivity.
Qed.

Section ByTime.

Variables (smallest variance : Z) (p : Double.double_t).

Lemma by_time_loop_None m :
  by_time_loop smallest variance p m = None <->
  forall d, In d (Timings.keys m) -> by_time_accepts smallest variance p d = false.
Proof.
  induction m as [|kv rest IH]; simpl.
  - split; [intros _ d [] | reflexivity].
  - destruct (by_time_accepts smallest variance p (fst kv)) eqn:E.
    + split; [discriminate|]. intros H. rewrite (H (fst kv)) in E by auto. discriminate.
    + rewrite IH. split.
      * intros H d [<-|Hd]; [exact E | exact (H d Hd)].
      * intros H d Hd. apply H. right. exact Hd.
Qed.

Lemma by_time_loop_Some m d :
  by_time_loop smallest variance p m = Some d ->
  exists pre kv post,
    m = pre ++ kv :: post /\ fst kv = d
    /\ by_time_accepts smallest variance p d = true
    /\ forall x, In x (Timings.keys pre) -> by_time_accepts smallest variance p x = false.
Proof.
  induction m as [|kv rest IH]; simpl; [discriminate|].
  destruct (by_time_accepts smallest variance p (fst kv)) eqn:E.
  - intros [= <-]. exists [], kv, rest. repeat split; [exact E | intros x []].
  - intros H. destruct (IH H) as (pre & kv' & post & -> & Hk & Ha & Hn).
    exists (kv :: pre), kv', post. repeat split; try assumption.
    intros x [<-|Hx]; [exact E | exact (Hn x Hx)].
Qed.

(** On a sorted map the loop returns the least accepted key. *)
Lemma by_time_loop_least m d :
  StronglySorted Z.lt (Timings.keys m) ->
  by_time_loop smallest variance p m = Some d ->
  In d (Timings.keys m)
  /\ by_time_accepts smallest variance p d = true
  /\ forall d', In d' (Timings.keys m) ->
                by_time_accepts smallest variance p d' = true -> d <= d'.
Proof.
  intros Hs H. destruct (by_time_loop_Some m d H) as (pre & kv & post & -> & <- & Ha & Hn).
  rewrite keys_app in *. simpl in *. split; [|split; [exact Ha|]].
  - apply in_or_app. right. left. reflexivity.
  - intros d' Hd' Ha'. apply sorted_app_inv in Hs. destruct Hs as [_ Hpost].
    apply in_app_or in Hd'. destruct Hd' as [Hd'|[<-|Hd']].
    + rewrite (Hn d' Hd') in Ha'. discriminate.
    + lia.
    + specialize (Hpost d' Hd'). lia.
Qed.

End ByTime.

Section ByCall.

Variables (calls : Z) (p : Double.double_t).

Lemma count_snoc pre kv :
  count (Build_profiler (pre ++ [kv]))
  = Int64.wrap_unsigned (count (Build_profiler pre) + snd kv).
Proof. rewrite count_app. reflexivity. Qed.

Lemma by_call_loop_None post : forall pre,
  by_call_loop calls p (count (Build_profiler pre)) post = None ->
  forall mid kv rest,
    post = mid ++ kv :: rest ->
    by_call_accepts calls p (count (Build_profiler (pre ++ mid))) (snd kv) = false.
Proof.
  induction post as [|kv0 post IH]; intros pre H mid kv rest E.
  - destruct mid; discriminate.
  - simpl in H.
    destruct (by_call_accepts calls p (count (Build_profiler pre)) (snd kv0)) eqn:Ea;
      [discriminate|].
    rewrite <- count_snoc in H.
    destruct mid as [|x mid]; simpl in E; injection E as -> E.
    + rewrite app_nil_r. exact Ea.
    + replace (pre ++ x :: mid) with ((pre ++ [x]) ++ mid)
        by (rewrite <- app_assoc; reflexivity).
      exact (IH (pre ++ [x]) H mid kv rest E).
Qed.

Lemma by_call_loop_Some post : forall pre d,
  by_call_loop calls p (count (Build_profiler pre)) post = Some d ->
  exists mid kv rest,
    post = mid ++ kv :: rest /\ fst kv = d
    /\ by_call_accepts calls p (count (Build_profiler (pre ++ mid))) (snd kv) = true
    /\ forall mid1 kv1 mid2,
         mid = mid1 ++ kv1 :: mid2 ->
         by_call_accepts calls p (count (Build_profiler (pre ++ mid1))) (snd kv1) = false.
Proof.
  induction post as [|kv0 post IH]; intros pre d H; simpl in H; [discriminate|].
  destruct (by_call_accepts calls p (count (Build_profiler pre)) (snd kv0)) eqn:Ea.
  - injection H as <-. exists [], kv0, post. rewrite app_nil_r.
    repeat split; [exact Ea|]. intros mid1 kv1 mid2 E. destruct mid1; discriminate.
  - rewrite <- count_snoc in H.
    destruct (IH (pre ++ [kv0]) d H) as (mid & kv & rest & -> & Hk & Ha & Hn).
    exists (kv0 :: mid), kv, rest.
    replace (pre ++ kv0 :: mid) with ((pre ++ [kv0]) ++ mid)
      by (rewrite <- app_assoc; reflexivity).
    repeat split; try assumption.
    intros mid1 kv1 mid2 E. destruct mid1 as [|x mid1]; simpl in E; injection E as -> E.
    + rewrite app_nil_r. exact Ea.
    + replace (pre ++ x :: mid1) with ((pre ++ [x]) ++ mid1)
        by (rewrite <- app_assoc; reflexivity).
      exact (Hn mid1 kv1 mid2 E).
Qed.

End ByCall.

(** * The literals of the model *)

(** The two tolerance literals are the doubles nearest to the decimal
    numbers written in the source: the distance to [5/10^5] (resp. [5/10^4])
    is at most half a unit in the last place. *)
Lemma lit_0_00005_nearest :
  2 * Z.abs (7378697629483821 * 10 ^ 5 - 5 * 2 ^ 67) <= 10 ^ 5
  /\ valid_binary Double.prec Double.emax Double.lit_0_00005 = true.
Proof. split; [vm_compute; discriminate | reflexivity]. Qed.

Lemma lit_0_0005_nearest :
  2 * Z.abs (4611686018427388 * 10 ^ 4 - 5 * 2 ^ 63) <= 10 ^ 4
  /\ valid_binary Double.prec Double.emax Double.lit_0_0005 = true.
Proof. split; [vm_compute; discriminate | reflexivity]. Qed.

(** Conversion rounds to nearest, ties to even: [2^53 + 1] becomes [2^53],
    [2^53 + 3] becomes [2^53 + 4], and [UINT64_MAX] becomes [2^64]. *)
Lemma of_Z_rounding :
  Double.of_Z (2 ^ 53 + 1) = Double.of_Z (2 ^ 53)
  /\ Double.of_Z (2 ^ 53 + 3) = Double.of_Z (2 ^ 53 + 4)
  /\ Double.of_Z (2 ^ 64 - 1) = S754_finite false 4503599627370496 12.
Proof. repeat split. Qed.

Lemma one_of_Z : Double.of_Z 1 = Double.one.
Proof. reflexivity. Qed.

Lemma half_of_quotient : Double.div (Double.of_Z 1) (Double.of_Z 2) = Double.half.
Proof. reflexivity. Qed.

Lemma twenty_of_Z : Double.of_Z 20 = Double.twenty.
Proof. reflexivity. Qed.

(** * The properties of the specification *)

(** ** Counting *)

(** C4: after any finite run of [record(duration)] calls on a fresh
    accumulator, [count()] is the number of calls, duplicates included.  The
    number of calls is one that [uint64_t] can hold. *)
Theorem count_track_all_fresh (durations : list nanoseconds) :
  Z.of_nat (length durations) < Int64.modulus ->
  count (track_all durations fresh) = Z.of_nat (length durations).
Proof.
  intros Hlen. rewrite count_track_all. change (count fresh) with 0.
  apply wrap_unsigned_small. int64_unfold. lia.
Qed.

Lemma count_track_all_fresh_witness :
  Z.of_nat (length [10; 20; 20; 30]) < Int64.modulus
  /\ count (track_all [10; 20; 20; 30] fresh) = Z.of_nat (length [10; 20; 20; 30]).
Proof.
  split; [reflexivity | apply (count_track_all_fresh [10; 20; 20; 30]); reflexivity].
Defined.

(** C5: [average_duration()] is [total_duration()] divided by [count()] in
    double arithmetic whenever [count() > 0]; on an accumulator without
    samples the division is [0.0 / 0.0] and the result is NaN. *)
Theorem average_duration_quotient (self : profiler) :
  (0 < count self ->
   average_duration self
   = Double.div (Double.of_Z (total_duration self)) (Double.of_Z (count self)))
  /\ (_timings self = [] -> average_duration self = Double.nan).
Proof.
  split.
  - intros _. unfold average_duration, total_duration, count.
    rewrite average_loop. reflexivity.
  - intros E. unfold average_duration. rewrite E. reflexivity.
Qed.

Lemma average_duration_quotient_witness :
  (0 < count (track_all [10; 20; 20; 30] fresh)
   /\ average_duration (track_all [10; 20; 20; 30] fresh)
      = Double.div (Double.of_Z (total_duration (track_all [10; 20; 20; 30] fresh)))
                   (Double.of_Z (count (track_all [10; 20; 20; 30] fresh))))
  /\ (_timings fresh = [] /\ average_duration fresh = Double.nan).
Proof.
  split; split.
  - reflexivity.
  - apply (proj1 (average_duration_quotient (track_all [10; 20; 20; 30] fresh))).
    reflexivity.
  - reflexivity.
  - apply (proj2 (average_duration_quotient fresh)). reflexivity.
Defined.

(** ** One entry per distinct duration *)

Lemma track_all_repeat d n :
  Z.of_nat (S n) < Int64.modulus ->
  _timings (track_all (repeat d (S n)) fresh) = [(d, Z.of_nat (S n))].
Proof.
  induction n as [|n IH]; intros Hn.
  - reflexivity.
  - change (repeat d (S (S n))) with (d :: repeat d (S n)).
    rewrite repeat_cons, track_all_app. cbn [track_all fold_left].
    fold (track_all (repeat d (S n)) fresh).
    unfold track. rewrite IH by lia. cbn [Timings.find].
    rewrite Z.eqb_refl. cbn [Timings.increment]. rewrite Z.eqb_refl.
    cbn [_timings]. do 2 f_equal.
    rewrite wrap_unsigned_small by (int64_unfold; lia). lia.
Qed.

Lemma count_occ_le_length (l : list Z) d : (count_occ Z.eq_dec l d <= length l)%nat.
Proof.
  induction l as [|x l IH]; simpl; [lia|]. destruct (Z.eq_dec x d); lia.
Qed.

(** C6: in the accumulator reached by a run of [record] calls, every distinct
    duration of the run is a key exactly once and is mapped to its number of
    occurrences; a run that records one value [N] times leaves the single
    entry [(value, N)]; recording a duration that is already a key increments
    its count and leaves the set of keys as it is. *)
Theorem track_all_one_entry_per_duration (durations : list nanoseconds) :
  Z.of_nat (length durations) < Int64.modulus ->
  let self := track_all durations fresh in
  NoDup (Timings.keys (_timings self))
  /\ (forall d, In d (Timings.keys (_timings self)) <-> In d durations)
  /\ (forall d, In d durations ->
        Timings.find d (_timings self)
        = Some (Z.of_nat (count_occ Z.eq_dec durations d)))
  /\ (forall d, durations <> [] -> durations = repeat d (length durations) ->
        _timings self = [(d, Z.of_nat (length durations))])
  /\ (forall d c, Timings.find d (_timings self) = Some c ->
        Timings.keys (_timings (track d self)) = Timings.keys (_timings self)
        /\ Timings.find d (_timings (track d self)) = Some (Int64.wrap_unsigned (c + 1))).
Proof.
  intros Hlen self. subst self.
  assert (Hfind : forall d,
             Timings.find d (_timings (track_all durations fresh))
             = match count_occ Z.eq_dec durations d with
               | O => None
               | S n => Some (Z.of_nat (S n))
               end).
  { intros d. rewrite find_track_all.
    pose proof (count_occ_le_length durations d) as Hle.
    destruct (count_occ Z.eq_dec durations d) as [|n]; [reflexivity|].
    rewrite wrap_unsigned_small by (int64_unfold; lia). reflexivity. }
  split; [|split; [|split; [|split]]].
  - apply sorted_NoDup, track_all_sorted. constructor.
  - intros d. rewrite <- find_In_keys, Hfind, (count_occ_In Z.eq_dec).
    destruct (count_occ Z.eq_dec durations d); split; try congruence; lia.
  - intros d Hd. rewrite Hfind. apply (count_occ_In Z.eq_dec) in Hd.
    destruct (count_occ Z.eq_dec durations d); [lia | reflexivity].
  - intros d Hne E. destruct durations as [|x l]; [congruence|].
    cbn [length] in *. rewrite E. apply track_all_repeat. exact Hlen.
  - intros d c Hc. unfold track. rewrite Hc. cbn [_timings]. split.
    + apply keys_increment.
    + rewrite (find_increment d d c) by exact Hc. rewrite Z.eqb_refl. reflexivity.
Qed.

Lemma track_all_one_entry_per_duration_witness :
  Z.of_nat (length [10; 20; 20; 30]) < Int64.modulus
  /\ NoDup (Timings.keys (_timings (track_all [10; 20; 20; 30] fresh)))
  /\ Timings.find 20 (_timings (track_all [10; 20; 20; 30] fresh)) = Some 2.
Proof.
  assert (H : Z.of_nat (length [10; 20; 20; 30]) < Int64.modulus) by reflexivity.
  split; [exact H|].
  destruct (track_all_one_entry_per_duration [10; 20; 20; 30] H) as (Hnd & _ & Hf & _).
  split; [exact Hnd|]. apply (Hf 20). right. left. reflexivity.
Defined.

(** ** The worked scenario *)

(** C7: after recording 10ns, 20ns, 20ns and 30ns into a fresh accumulator,
    [count()] is 4, [total_duration()] is 80ns, [average_duration()] is 20.0,
    and both [percentile(0.5, false)] and [percentile(0.5, true)] are 20ns. *)
Theorem scenario_10_20_20_30 :
  let self := track_all [10; 20; 20; 30] fresh in
  count self = 4
  /\ total_duration self = 80
  /\ average_duration self = Double.twenty
  /\ percentile Double.half false self = Some 20
  /\ percentile Double.half true self = Some 20.
Proof. repeat split; vm_compute; reflexivity. Qed.

(** The threshold of that by-time query, which the loop does not consult, is
    the midpoint 20ns. *)
Lemma scenario_threshold : by_time_threshold 10 (Int64.wrap_signed (30 - 10)) Double.half = Some 20.
Proof. reflexivity. Qed.

(** ** By-call percentile at 0.0 *)

(** C2: on a non-empty accumulator [percentile(0.0, false)] returns the
    minimum recorded duration. *)
Theorem percentile_by_call_zero_min (self : profiler) :
  Timings.wf (_timings self) -> _timings self <> [] ->
  exists d,
    percentile Double.zero false self = Some d
    /\ In d (Timings.keys (_timings self))
    /\ forall d', In d' (Timings.keys (_timings self)) -> d <= d'.
Proof.
  intros (Hs & _) Hne. unfold percentile. cbn [Double.eqb SFeqb SFcompare Double.zero].
  destruct (_timings self) as [|[k c] rest]; [congruence|].
  exists k. cbn [Timings.begin hd_error option_map fst].
  split; [reflexivity|]. split; [left; reflexivity|].
  intros d' Hd'. exact (sorted_head_least k _ d' Hs Hd').
Qed.

Lemma percentile_by_call_zero_min_witness :
  exists d,
    percentile Double.zero false (track_all [30; 10; 20; 20] fresh) = Some d
    /\ In d (Timings.keys (_timings (track_all [30; 10; 20; 20] fresh)))
    /\ forall d', In d' (Timings.keys (_timings (track_all [30; 10; 20; 20] fresh))) -> d <= d'.
Proof.
  apply (percentile_by_call_zero_min (track_all [30; 10; 20; 20] fresh)).
  - apply track_all_wf; [|exact fresh_wf].
    repeat constructor; vm_compute; congruence.
  - vm_compute. discriminate.
Defined.

(** ** The sentinel *)

Lemma by_time_satisfied_unfold self p smallest cs largest cl d :
  Timings.begin (_timings self) = Some (smallest, cs) ->
  Timings.rbegin (_timings self) = Some (largest, cl) ->
  by_time_satisfied self p d
  = by_time_accepts smallest (Int64.wrap_signed (largest - smallest)) p d.
Proof. intros Hb Hr. unfold by_time_satisfied. rewrite Hb, Hr. reflexivity. Qed.

Lemma rbegin_nonempty (m : Timings.t) : m <> [] -> exists kv, Timings.rbegin m = Some kv.
Proof.
  intros Hne. destruct (exists_last Hne) as (pre & kv & ->).
  exists kv. apply rbegin_app.
Qed.

(** C8: on a non-empty accumulator, when the scan of [percentile] runs
    through all distinct durations without one passing its test, the call
    returns the sentinel of -1 nanosecond. *)
Theorem percentile_sentinel (self : profiler) (p : Double.double_t) (by_time : bool) :
  _timings self <> [] ->
  scan_exhausted self p by_time ->
  percentile p by_time self = Some (-1).
Proof.
  intros Hne Hscan. unfold percentile. destruct by_time; cbn [scan_exhausted] in Hscan.
  - destruct (rbegin_nonempty _ Hne) as [[largest cl] Hr].
    destruct (Timings.begin (_timings self)) as [[smallest cs]|] eqn:Hb.
    2:{ destruct (_timings self); [congruence | discriminate]. }
    rewrite Hr.
    assert (Hloop : by_time_loop smallest (Int64.wrap_signed (largest - smallest)) p
                      (_timings self) = None).
    { apply by_time_loop_None. intros d Hd.
      rewrite <- (by_time_satisfied_unfold self p smallest cs largest cl d Hb Hr).
      exact (Hscan d Hd). }
    rewrite Hloop. reflexivity.
  - destruct Hscan as [Hp Hall]. rewrite Hp.
    destruct (by_call_loop (count self) p 0 (_timings self)) as [d|] eqn:Hloop;
      [|reflexivity].
    change 0 with (count (Build_profiler [])) in Hloop.
    destruct (by_call_loop_Some _ _ _ _ _ Hloop) as (mid & kv & rest & E & _ & Ha & _).
    cbn [app] in Ha. specialize (Hall mid kv rest E).
    unfold by_call_satisfied in Hall. congruence.
Qed.

Lemma percentile_sentinel_witness :
  _timings (track_all [5; 5; 5] fresh) <> []
  /\ scan_exhausted (track_all [5; 5; 5] fresh) Double.half true
  /\ percentile Double.half true (track_all [5; 5; 5] fresh) = Some (-1).
Proof.
  assert (Hne : _timings (track_all [5; 5; 5] fresh) <> []) by (vm_compute; discriminate).
  assert (Hscan : scan_exhausted (track_all [5; 5; 5] fresh) Double.half true).
  { intros d [<-|[]]. vm_compute. reflexivity. }
  split; [exact Hne|]. split; [exact Hscan|].
  exact (percentile_sentinel (track_all [5; 5; 5] fresh) Double.half true Hne Hscan).
Defined.

(** ** A single distinct duration *)

(** C10: when the mapping holds exactly one distinct duration, with any
    occurrence count, [percentile(p, true)] returns the sentinel of -1
    nanosecond for every [p]: [largest - smallest] is zero, the normalized
    position is [0.0 / 0.0], a NaN, and both comparisons of the test are
    false. *)
Theorem percentile_by_time_single (self : profiler) (p : Double.double_t) :
  length (_timings self) = 1%nat ->
  percentile p true self = Some (-1).
Proof.
  destruct self as [m]. cbn [_timings]. intros Hlen.
  destruct m as [|[d c] [|kv rest]]; try discriminate.
  unfold percentile. cbn [_timings Timings.begin hd_error Timings.rbegin]. cbv zeta.
  assert (Hloop : by_time_loop d (Int64.wrap_signed (d - d)) p [(d, c)] = None).
  { apply by_time_loop_None. intros x [<-|[]].
    unfold by_time_accepts. cbn [fst]. rewrite !Z.sub_diag.
    change (Int64.wrap_signed 0) with 0. rewrite div_zero_zero.
    rewrite is_equal_nan_l, gtb_nan_l. reflexivity. }
  rewrite Hloop. reflexivity.
Qed.

Lemma percentile_by_time_single_witness :
  length (_timings (track_all [5; 5; 5] fresh)) = 1%nat
  /\ percentile Double.half true (track_all [5; 5; 5] fresh) = Some (-1).
Proof.
  split; [reflexivity|].
  apply (percentile_by_time_single (track_all [5; 5; 5] fresh) Double.half). reflexivity.
Defined.

(** ** The scope tracker *)

(** C9: [reparent] leaves the tracker as it is: its stored accumulator
    reference is the one it had, and the release that follows reports to the
    same accumulator, or to none when the tracker was cancelled. *)
Theorem reparent_noop (self : instance) (parent : option handle) (now : Z) (st : store) :
  _parent (reparent self parent) = _parent self
  /\ instance_release (reparent self parent) now st = instance_release self now st
  /\ instance_release (reparent (cancel self) parent) now st = st.
Proof. repeat split. Qed.

(** A tracker taken from the first of two accumulators and reparented to the
    second still reports its 150ns to the first. *)
Lemma reparent_release_example :
  instance_release (reparent (track_scope 0%nat 100) (Some 1%nat)) 250 [fresh; fresh]
  = [track 150 fresh; fresh].
Proof. reflexivity. Qed.

(** ** By-time percentile *)

(** With two or more distinct durations the largest one has the normalized
    position [1.0], whether or not [largest - smallest] wraps. *)
Lemma by_time_largest_accepted smallest largest p :
  Int64.in_int64 smallest -> Int64.in_int64 largest -> smallest < largest ->
  Double.leb p Double.one = true ->
  by_time_accepts smallest (Int64.wrap_signed (largest - smallest)) p largest = true.
Proof.
  intros Hs Hl Hlt Hp. unfold by_time_accepts.
  pose proof (wrap_signed_sub_nonzero smallest largest Hs Hl Hlt) as Hnz.
  pose proof (wrap_signed_range (largest - smallest)) as Hr.
  rewrite div_of_Z_self; [apply one_at_or_above; exact Hp | exact Hnz |].
  int64_unfold. lia.
Qed.

(** When [largest - smallest] does not overflow, no difference taken by the
    loop wraps. *)
Lemma by_time_no_wrap smallest largest d :
  Int64.in_int64 (largest - smallest) -> smallest <= d <= largest ->
  Int64.wrap_signed (d - smallest) = d - smallest.
Proof. intros Hv Hd. apply wrap_signed_small. int64_unfold. lia. Qed.

Lemma rbegin_cons kv (m : Timings.t) : m <> [] -> Timings.rbegin (kv :: m) = Timings.rbegin m.
Proof. destruct m; [congruence | reflexivity]. Qed.

Lemma rbegin_In (m : Timings.t) kv : Timings.rbegin m = Some kv -> In kv m.
Proof.
  intros H. destruct (rbegin_last_key m kv H) as [pre ->].
  apply in_or_app. right. left. reflexivity.
Qed.

(** With at least two distinct durations and [p] in [[0.0, 1.0]] the by-time
    scan finds an entry, and the one it returns is the smallest recorded
    duration that passes the test of the loop.  The position it tests is the
    quotient the code computes; it is the quotient of the true differences
    when [largest - smallest] fits [int64_t] ([by_time_no_wrap]). *)
Lemma percentile_by_time_smallest (self : profiler) (p : Double.double_t) :
  Timings.wf (_timings self) -> (2 <= length (_timings self))%nat -> Double.in_unit p ->
  returns_smallest_by_time self p.
Proof.
  destruct self as [m]. cbn [_timings]. intros (Hs & Hk & _) Hlen [_ Hp1].
  destruct m as [|[smallest cs] rest]; [simpl in Hlen; lia|].
  assert (Hrest : rest <> []) by (destruct rest; [simpl in Hlen; lia | discriminate]).
  destruct (rbegin_nonempty rest Hrest) as [[largest cl] Hr].
  set (self := Build_profiler ((smallest, cs) :: rest)).
  assert (Hr' : Timings.rbegin (_timings self) = Some (largest, cl)).
  { cbn [self _timings]. rewrite rbegin_cons by exact Hrest. exact Hr. }
  assert (Hb : Timings.begin (_timings self) = Some (smallest, cs)) by reflexivity.
  assert (Hin : In largest (Timings.keys rest)).
  { apply rbegin_In in Hr. apply (in_map fst) in Hr. exact Hr. }
  assert (Hlt : smallest < largest).
  { simpl in Hs. inversion Hs as [|? ? _ Hall]; subst.
    rewrite Forall_forall in Hall. exact (Hall largest Hin). }
  rewrite Forall_forall in Hk.
  assert (Hacc : by_time_accepts smallest (Int64.wrap_signed (largest - smallest)) p largest
                 = true).
  { apply by_time_largest_accepted; try assumption; apply Hk; simpl; auto. }
  assert (Hsat : forall x, by_time_satisfied self p x
                 = by_time_accepts smallest (Int64.wrap_signed (largest - smallest)) p x).
  { intros x. apply (by_time_satisfied_unfold self p smallest cs largest cl x Hb Hr'). }
  unfold returns_smallest_by_time, percentile. rewrite Hb, Hr'. cbv zeta.
  destruct (by_time_loop smallest (Int64.wrap_signed (largest - smallest)) p (_timings self))
    as [d|] eqn:Hloop.
  - exists d.
    destruct (by_time_loop_least _ _ _ _ d Hs Hloop) as (Hd & Ha & Hmin).
    split; [reflexivity|]. split; [exact Hd|].
    split; [rewrite Hsat; exact Ha|].
    intros d' Hd' Ha'. rewrite Hsat in Ha'. exact (Hmin d' Hd' Ha').
  - exfalso. rewrite by_time_loop_None in Hloop.
    rewrite (Hloop largest) in Hacc by (simpl; auto). discriminate.
Qed.

Lemma percentile_by_time_smallest_witness :
  returns_smallest_by_time (track_all [10; 20; 20; 30] fresh) Double.half.
Proof.
  apply (percentile_by_time_smallest (track_all [10; 20; 20; 30] fresh) Double.half).
  - apply track_all_wf; [|exact fresh_wf].
    repeat constructor; vm_compute; congruence.
  - vm_compute. lia.
  - split; reflexivity.
Defined.

(** That statement does not extend to every non-empty accumulator: with a
    single distinct duration the call returns -1ns, which is not a recorded
    duration. *)
Lemma percentile_by_time_nonempty_fails :
  ~ (forall self p,
       Timings.wf (_timings self) -> _timings self <> [] -> Double.in_unit p ->
       returns_smallest_by_time self p).
Proof.
  intros H.
  destruct (H (track_all [5] fresh) Double.half) as (d & Hp & Hin & _).
  - apply track_all_wf; [|exact fresh_wf]. repeat constructor; vm_compute; congruence.
  - vm_compute. discriminate.
  - split; reflexivity.
  - vm_compute in Hp. injection Hp as <-.
    vm_compute in Hin. destruct Hin as [Hin|[]]. discriminate.
Qed.

(** C1: the by-time percentile is to return the smallest recorded duration at
    or above [p], for every non-empty accumulator.  On the accumulator that
    holds the single sample 5ns the code does not: [largest - smallest] is
    zero, the position of 5ns is [0.0 / 0.0], a NaN, and
    [percentile(0.5, true)] returns -1ns.  The threshold the code computes
    for that call and never reads, [smallest + p * (largest - smallest)], is
    5ns, which the recorded duration meets, and the by-call scan returns 5ns
    on the same accumulator for [p] equal to 0.0, 0.5 and 1.0. *)
Theorem percentile_by_time_single_sample_defect :
  let self := track_all [5] fresh in
  _timings self = [(5, 1)]
  /\ percentile Double.half true self = Some (-1)
  /\ ~ In (-1) (Timings.keys (_timings self))
  /\ by_time_satisfied self Double.half 5 = false
  /\ Double.div (Double.of_Z (Int64.wrap_signed (5 - 5)))
                (Double.of_Z (Int64.wrap_signed (5 - 5))) = Double.nan
  /\ by_time_threshold 5 (Int64.wrap_signed (5 - 5)) Double.half = Some 5
  /\ percentile Double.zero false self = Some 5
  /\ percentile Double.half false self = Some 5
  /\ percentile Double.one false self = Some 5.
Proof.
  cbv zeta. repeat split; try (vm_compute; reflexivity).
  vm_compute. intros [H|[]]. discriminate H.
Qed.

(** ** By-call percentile near 1.0 *)

Lemma count_range self : Int64.in_uint64 (count self).
Proof. rewrite count_sum. apply wrap_unsigned_range. Qed.

(** The last entry brings the running total to [calls]; its cumulative
    fraction is [1.0] and it passes the test for every [p] that [is_equal]
    accepts next to [1.0]. *)
Lemma by_call_last_accepted (pre : Timings.t) last p :
  0 < count (Build_profiler (pre ++ [last])) ->
  is_equal p Double.one Double.lit_0_0005 = true ->
  by_call_satisfied (Build_profiler (pre ++ [last])) p pre last = true.
Proof.
  intros Hpos Hp. unfold by_call_satisfied, by_call_accepts.
  rewrite <- count_snoc.
  pose proof (count_range (Build_profiler (pre ++ [last]))) as Hr.
  rewrite (div_of_Z_self (count (Build_profiler (pre ++ [last]))))
    by (int64_unfold; lia).
  rewrite Hp. reflexivity.
Qed.

(** C3, amended: on an accumulator with at least one sample and for a [p]
    that [is_equal] accepts next to [1.0] (in particular [p = 1.0]),
    [percentile(p, false)] returns the smallest recorded duration whose entry
    passes the by-call test; it returns the maximum recorded duration exactly
    when no entry in front of the last one passes the test. *)
Theorem percentile_by_call_near_one (self : profiler) (p : Double.double_t) :
  Timings.wf (_timings self) -> 0 < count self ->
  is_equal p Double.one Double.lit_0_0005 = true ->
  exists pre d c post,
    _timings self = pre ++ (d, c) :: post
    /\ percentile p false self = Some d
    /\ by_call_satisfied self p pre (d, c) = true
    /\ (forall pre' kv post',
          _timings self = pre' ++ kv :: post' -> fst kv < d ->
          by_call_satisfied self p pre' kv = false)
    /\ (returns_largest_by_call self p <->
        forall pre' kv post',
          _timings self = pre' ++ kv :: post' -> post' <> [] ->
          by_call_satisfied self p pre' kv = false).
Proof.
  destruct self as [m]. cbn [_timings]. intros (Hs & _) Hpos Hp.
  set (self := Build_profiler m) in *.
  assert (Hne : m <> []) by (intros ->; vm_compute in Hpos; discriminate).
  destruct (exists_last Hne) as (pl & last & Em).
  assert (Hlast : by_call_satisfied self p pl last = true).
  { subst self. rewrite Em in *. apply by_call_last_accepted; assumption. }
  assert (Hperc : percentile p false self
                  = match by_call_loop (count self) p 0 m with
                    | Some d => Some d
                    | None => Some (-1)
                    end).
  { unfold percentile. rewrite (near_one_nonzero p Hp). reflexivity. }
  destruct (by_call_loop (count self) p 0 m) as [d|] eqn:Hloop.
  2:{ exfalso. change 0 with (count (Build_profiler [])) in Hloop.
      pose proof (by_call_loop_None _ _ _ _ Hloop pl last [] Em) as Hn.
      cbn [app] in Hn. unfold by_call_satisfied in Hlast. congruence. }
  change 0 with (count (Build_profiler [])) in Hloop.
  destruct (by_call_loop_Some _ _ _ _ _ Hloop) as (pre & [d0 c] & post & E & Hk & Ha & Hn).
  cbn [fst] in Hk. subst d0. cbn [app snd] in Ha, Hn.
  assert (Hmin : forall pre' kv post',
             m = pre' ++ kv :: post' -> fst kv < d ->
             by_call_satisfied self p pre' kv = false).
  { intros pre' kv post' E' Hlt.
    assert (Hs' : StronglySorted Z.lt (Timings.keys (pre ++ (d, c) :: post)))
      by (rewrite <- E; exact Hs).
    destruct (sorted_split_lt pre pre' (d, c) kv post post' Hs') as [r Er];
      [congruence | exact Hlt |].
    exact (Hn pre' kv r Er). }
  exists pre, d, c, post. split; [exact E|]. split; [exact Hperc|].
  split; [exact Ha|]. split; [exact Hmin|].
  unfold returns_largest_by_call. cbn [_timings self]. rewrite Hperc. split.
  - intros Hret pre' kv post' E' Hpost'.
    destruct (Timings.rbegin m) as [lastkv|] eqn:Hr; [|discriminate].
    cbn [option_map] in Hret. injection Hret as Hd.
    apply (Hmin pre' kv post' E'). rewrite Hd.
    apply (sorted_before_last pre' kv post' lastkv); [rewrite <- E'; exact Hs| |exact Hpost'].
    rewrite <- E'. exact Hr.
  - intros Hnone. destruct post as [|x post].
    + rewrite E, rbegin_app. reflexivity.
    + exfalso. assert (Hx : x :: post <> []) by discriminate.
      pose proof (Hnone pre (d, c) (x :: post) E Hx) as Hf.
      unfold by_call_satisfied in Hf. cbn [snd] in Hf. congruence.
Qed.

Lemma percentile_by_call_near_one_witness :
  exists d, percentile Double.one false (track_all [10; 20; 20; 30] fresh) = Some d.
Proof.
  destruct (percentile_by_call_near_one (track_all [10; 20; 20; 30] fresh) Double.one)
    as (pre & d & c & post & _ & Hp & _).
  - apply track_all_wf; [|exact fresh_wf].
    repeat constructor; vm_compute; congruence.
  - reflexivity.
  - reflexivity.
  - exists d. exact Hp.
Defined.

(** C3 as stated fails: with 9999 samples of 10ns and one of 20ns the entry
    of 10ns already has the cumulative fraction 0.9999, within 0.0005 of 1.0,
    and [percentile(1.0, false)] returns 10ns although the maximum is 20ns. *)
Lemma percentile_by_call_one_not_max :
  ~ (forall self,
       Timings.wf (_timings self) -> _timings self <> [] ->
       returns_largest_by_call self Double.one).
Proof.
  intros H.
  assert (Em : _timings (track_all (repeat 10 (Z.to_nat 9999) ++ [20]) fresh) = [(10, 9999); (20, 1)])
    by (vm_compute; reflexivity).
  specialize (H (track_all (repeat 10 (Z.to_nat 9999) ++ [20]) fresh)).
  unfold returns_largest_by_call in H. rewrite Em in H.
  assert (Hp : percentile Double.one false (track_all (repeat 10 (Z.to_nat 9999) ++ [20]) fresh) = Some 10)
    by (vm_compute; reflexivity).
  rewrite Hp in H. cbn in H.
  assert (Some 10 = Some 20) as Hc; [|discriminate Hc].
  apply H.
  - repeat constructor; vm_compute; congruence.
  - discriminate.
Qed.

(** * Further facts about the binary64 model *)

Lemma SFcompare_antisym a b : SFcompare b a = option_map CompOpp (SFcompare a b).
Proof.
  destruct a as [sa|sa| |sa ma ea], b as [sb|sb| |sb mb eb]; simpl;
    try destruct sa; try destruct sb; try reflexivity;
    change (PosDef.Pos.compare_cont Eq ma mb) with (Pos.compare ma mb);
    change (PosDef.Pos.compare_cont Eq mb ma) with (Pos.compare mb ma);
    rewrite (Z.compare_antisym ea eb), (Pos.compare_antisym ma mb);
    destruct (ea ?= eb); simpl; try reflexivity;
    destruct (ma ?= mb)%positive; reflexivity.
Qed.

Lemma SFcompare_not_nan a b :
  a <> S754_nan -> b <> S754_nan -> exists c, SFcompare a b = Some c.
Proof.
  intros Ha Hb. destruct a, b; try congruence; simpl; eauto.
Qed.

Lemma shr_fexp_nonneg m e l :
  0 <= m -> 0 <= shr_m (fst (shr_fexp Double.prec Double.emax m e l)).
Proof.
  intros Hm. unfold shr_fexp, shr.
  assert (Hrec : shr_m (shr_record_of_loc m l) = m) by (destruct l as [|[| |]]; reflexivity).
  destruct (fexp Double.prec Double.emax (Zdigits2 m + e) - e) as [|n|n]; cbn [fst];
    try (rewrite Hrec; exact Hm).
  rewrite iter_shr_1_m, Hrec by (rewrite Hrec; exact Hm).
  apply Z.div_pos; [exact Hm | apply Z.pow_pos_nonneg; lia].
Qed.

Lemma binary_round_aux_not_nan sx mx ex lx :
  0 <= mx -> binary_round_aux Double.prec Double.emax sx mx ex lx <> S754_nan.
Proof.
  intros Hm. unfold binary_round_aux.
  pose proof (shr_fexp_nonneg mx ex lx Hm) as H1.
  destruct (shr_fexp Double.prec Double.emax mx ex lx) as [mrs' e']. cbn [fst] in H1.
  pose proof (round_nearest_even_bounds (shr_m mrs') (loc_of_shr_record mrs')) as Hr.
  pose proof (shr_fexp_nonneg (round_nearest_even (shr_m mrs') (loc_of_shr_record mrs'))
                e' loc_Exact ltac:(lia)) as H2.
  destruct (shr_fexp Double.prec Double.emax
              (round_nearest_even (shr_m mrs') (loc_of_shr_record mrs')) e' loc_Exact)
    as [mrs'' e'']. cbn [fst] in H2.
  destruct (shr_m mrs'') as [|m|m]; try lia; try discriminate.
  destruct (e'' <=? Double.emax - Double.prec); discriminate.
Qed.

Lemma div_finite_not_nan s1 m1 e1 s2 m2 e2 :
  Double.div (S754_finite s1 m1 e1) (S754_finite s2 m2 e2) <> S754_nan.
Proof.
  unfold Double.div, SFdiv, SFdiv_core_binary.
  set (e' := Z.min _ _). set (m' := match e1 - e2 - e' with Z0 => _ | Zpos _ => _ | Zneg _ => _ end).
  assert (Hm' : 0 <= m').
  { subst m'. destruct (e1 - e2 - e') as [|n|n]; try lia.
    rewrite Z.shiftl_mul_pow2 by lia.
    apply Z.mul_nonneg_nonneg; [lia | apply Z.pow_nonneg; lia]. }
  pose proof (Z.div_pos m' (Zpos m2) Hm' ltac:(lia)) as Hq.
  unfold Z.div in Hq. destruct (Z.div_eucl m' (Zpos m2)) as [q r]. cbn [fst] in Hq.
  apply binary_round_aux_not_nan. exact Hq.
Qed.

(** A quotient of two 64-bit unsigned integers with a nonzero divisor is
    not a NaN, and it is [+0.0] when the dividend is zero. *)
Lemma div_of_Z_not_nan x c :
  Int64.in_uint64 x -> Int64.in_uint64 c -> c <> 0 ->
  Double.div (Double.of_Z x) (Double.of_Z c) <> S754_nan.
Proof.
  intros Hx Hc Hnz.
  destruct (of_Z_finite c Hnz) as (s2 & m2 & e2 & E2); [int64_unfold; lia|]. rewrite E2.
  destruct (Z.eq_dec x 0) as [->|Hx0].
  - change (Double.of_Z 0) with (S754_zero false). discriminate.
  - destruct (of_Z_finite x Hx0) as (s1 & m1 & e1 & E1); [int64_unfold; lia|]. rewrite E1.
    apply div_finite_not_nan.
Qed.

Lemma of_Z_pos_sign p :
  Zpos p < 2 ^ 64 -> exists m e, Double.of_Z (Zpos p) = S754_finite false m e.
Proof. intros Hp. apply binary_round_finite. exact Hp. Qed.

Lemma div_zero_of_Z c :
  0 < c < 2 ^ 64 -> Double.div (Double.of_Z 0) (Double.of_Z c) = Double.zero.
Proof.
  intros Hc. destruct c as [|p|p]; try lia.
  destruct (of_Z_pos_sign p ltac:(lia)) as (m & e & E). rewrite E. reflexivity.
Qed.

(** * Further properties of the accumulator *)

(** ** By-call percentile on [[0.0, 1.0]] *)

(** The by-call loop cannot run off the end once the cumulative fraction in
    front of the remaining entries is below [p] and [p <= 1.0]: an entry that
    is passed over has its own cumulative fraction below [p], and the last
    entry has the fraction [1.0]. *)
Lemma by_call_loop_finds calls p (post : Timings.t) : forall pre,
  post <> [] ->
  calls = count (Build_profiler (pre ++ post)) -> 0 < calls ->
  Double.ltb (Double.div (Double.of_Z (count (Build_profiler pre))) (Double.of_Z calls)) p = true ->
  Double.leb p Double.one = true ->
  by_call_loop calls p (count (Build_profiler pre)) post <> None.
Proof.
  induction post as [|kv rest IH]; intros pre Hne Hcalls Hpos Hlast Hp1; [congruence|].
  cbn [by_call_loop].
  destruct (by_call_accepts calls p (count (Build_profiler pre)) (snd kv)) eqn:Ea;
    [discriminate|].
  rewrite <- count_snoc.
  assert (Hrange : Int64.in_uint64 calls) by (rewrite Hcalls; apply count_range).
  unfold by_call_accepts in Ea. rewrite <- count_snoc in Ea.
  set (pn := Double.div (Double.of_Z (count (Build_profiler (pre ++ [kv])))) (Double.of_Z calls)) in *.
  rewrite Hlast in Ea. cbn [andb] in Ea.
  apply orb_false_iff in Ea. destruct Ea as [Heq Hgt].
  destruct rest as [|kv' rest'].
  - exfalso. assert (Epn : pn = Double.one).
    { subst pn. rewrite <- Hcalls. apply div_of_Z_self; int64_unfold; lia. }
    rewrite Epn in *.
    unfold is_equal in Heq. apply orb_false_iff in Heq. destruct Heq as [Heq _].
    unfold Double.leb, SFleb in Hp1. unfold Double.eqb, SFeqb in Heq.
    unfold Double.gtb, SFltb in Hgt.
    destruct (SFcompare p Double.one) as [[| |]|]; discriminate.
  - apply IH.
    + discriminate.
    + rewrite Hcalls, <- app_assoc. reflexivity.
    + exact Hpos.
    + fold pn.
      assert (Hpn : pn <> S754_nan).
      { subst pn. apply div_of_Z_not_nan; [apply count_range | exact Hrange | lia]. }
      assert (Hpnan : p <> S754_nan).
      { intros ->. unfold Double.leb, SFleb in Hp1. simpl in Hp1. discriminate. }
      destruct (SFcompare_not_nan p pn Hpnan Hpn) as [c Hc].
      unfold is_equal in Heq. apply orb_false_iff in Heq. destruct Heq as [Heq _].
      unfold Double.eqb, SFeqb in Heq. unfold Double.gtb, SFltb in Hgt.
      unfold Double.ltb, SFltb. rewrite (SFcompare_antisym p pn), Hc.
      rewrite Hc in Heq, Hgt. destruct c; try discriminate. reflexivity.
    + exact Hp1.
Qed.

Lemma by_call_loop_In calls p (post : Timings.t) : forall a d,
  by_call_loop calls p a post = Some d -> In d (Timings.keys post).
Proof.
  induction post as [|kv rest IH]; intros a d H; cbn [by_call_loop] in H; [discriminate|].
  destruct (by_call_accepts calls p a (snd kv)).
  - injection H as <-. left. reflexivity.
  - right. exact (IH _ _ H).
Qed.

(** X1: on an accumulator with at least one sample, [percentile(p, false)]
    returns a recorded duration for every [p] in [[0.0, 1.0]]; the sentinel
    is out of reach of the by-call scan on that range. *)
Theorem percentile_by_call_in_unit_recorded (self : profiler) (p : Double.double_t) :
  0 < count self -> Double.in_unit p ->
  exists d,
    percentile p false self = Some d /\ In d (Timings.keys (_timings self)).
Proof.
  destruct self as [m]. intros Hpos [Hp0 Hp1].
  assert (Hne : m <> []) by (intros ->; vm_compute in Hpos; discriminate).
  unfold percentile. cbn [_timings].
  destruct (Double.eqb p Double.zero) eqn:Ez.
  - destruct m as [|[k c] rest]; [congruence|]. exists k. split; [reflexivity | left; reflexivity].
  - assert (Hlt : Double.ltb Double.zero p = true).
    { unfold Double.leb, SFleb in Hp0. unfold Double.eqb, SFeqb in Ez.
      unfold Double.ltb, SFltb. rewrite (SFcompare_antisym Double.zero p) in Ez.
      destruct (SFcompare Double.zero p) as [[| |]|]; simpl in *; try discriminate.
      reflexivity. }
    pose proof (count_range (Build_profiler m)) as Hr.
    assert (Hloop : by_call_loop (count (Build_profiler m)) p (count (Build_profiler [])) m
                    <> None).
    { apply by_call_loop_finds; try assumption; [reflexivity|].
      change (count (Build_profiler [])) with 0.
      rewrite div_zero_of_Z by (int64_unfold; lia). exact Hlt. }
    change (count (Build_profiler [])) with 0 in Hloop.
    destruct (by_call_loop (count (Build_profiler m)) p 0 m) as [d|] eqn:El; [|congruence].
    exists d. split; [reflexivity|]. exact (by_call_loop_In _ _ _ _ _ El).
Qed.

Lemma percentile_by_call_in_unit_recorded_witness :
  0 < count (track_all [10; 20; 20; 30] fresh)
  /\ Double.in_unit Double.half
  /\ exists d,
       percentile Double.half false (track_all [10; 20; 20; 30] fresh) = Some d
       /\ In d (Timings.keys (_timings (track_all [10; 20; 20; 30] fresh))).
Proof.
  assert (H1 : 0 < count (track_all [10; 20; 20; 30] fresh)) by reflexivity.
  assert (H2 : Double.in_unit Double.half) by (split; reflexivity).
  split; [exact H1|]. split; [exact H2|].
  exact (percentile_by_call_in_unit_recorded (track_all [10; 20; 20; 30] fresh) Double.half H1 H2).
Defined.

(** ** [total_duration] *)

Lemma wrap_signed_add_l a b :
  Int64.wrap_signed (Int64.wrap_signed a + b) = Int64.wrap_signed (a + b).
Proof.
  unfold Int64.wrap_signed. f_equal.
  replace ((a + Int64.half_modulus) mod Int64.modulus - Int64.half_modulus + b
           + Int64.half_modulus)
    with ((a + Int64.half_modulus) mod Int64.modulus + b) by lia.
  rewrite Z.add_mod_idemp_l by discriminate. f_equal. lia.
Qed.

Lemma wrap_signed_add_r a b :
  Int64.wrap_signed (a + Int64.wrap_signed b) = Int64.wrap_signed (a + b).
Proof. rewrite (Z.add_comm a), wrap_signed_add_l, (Z.add_comm b). reflexivity. Qed.

Lemma wrap_signed_unsigned a : Int64.wrap_signed (Int64.wrap_unsigned a) = Int64.wrap_signed a.
Proof.
  unfold Int64.wrap_signed, Int64.wrap_unsigned. f_equal.
  apply Z.add_mod_idemp_l. discriminate.
Qed.

Lemma wrap_signed_congr a b :
  Int64.wrap_unsigned a = Int64.wrap_unsigned b -> Int64.wrap_signed a = Int64.wrap_signed b.
Proof. intros H. rewrite <- (wrap_signed_unsigned a), H. apply wrap_signed_unsigned. Qed.

Lemma total_loop m : forall a,
  fold_left (fun duration kv => Int64.wrap_signed (duration + scaled kv)) m
    (Int64.wrap_signed a)
  = Int64.wrap_signed (a + sum_ticks m).
Proof.
  induction m as [|kv rest IH]; intros a; cbn [fold_left sum_ticks].
  - rewrite Z.add_0_r. reflexivity.
  - unfold scaled. rewrite wrap_signed_unsigned, wrap_signed_add_l, wrap_signed_add_r, IH.
    f_equal. lia.
Qed.

Lemma total_duration_sum self :
  total_duration self = Int64.wrap_signed (sum_ticks (_timings self)).
Proof. unfold total_duration. change 0 with (Int64.wrap_signed 0) at 1. apply total_loop. Qed.

Lemma sum_ticks_insert d m :
  Timings.find d m = None -> sum_ticks (Timings.insert d 1 m) = sum_ticks m + d.
Proof.
  induction m as [|[k c] rest IH]; cbn [Timings.find Timings.insert]; intros Hf;
    [cbn [sum_ticks fst snd]; lia|].
  destruct (Z.eqb_spec k d) as [->|Hne]; [discriminate|].
  destruct (d <? k); cbn [sum_ticks fst snd]; [lia|].
  destruct (Z.eqb_spec d k) as [->|_]; [congruence|].
  cbn [sum_ticks fst snd]. rewrite IH by exact Hf. lia.
Qed.

Lemma sum_ticks_increment d c m :
  Timings.find d m = Some c ->
  Int64.wrap_unsigned (sum_ticks (Timings.increment d m))
  = Int64.wrap_unsigned (sum_ticks m + d).
Proof.
  induction m as [|[k v] rest IH]; cbn [Timings.find Timings.increment]; intros Hf;
    [discriminate|].
  destruct (Z.eqb_spec k d) as [->|Hne]; cbn [sum_ticks fst snd].
  - unfold Int64.wrap_unsigned.
    rewrite Z.add_mod, Z.mul_mod_idemp_r, <- Z.add_mod by discriminate. f_equal. lia.
  - specialize (IH Hf). unfold Int64.wrap_unsigned in *.
    rewrite Z.add_mod, IH, <- Z.add_mod by discriminate. f_equal. lia.
Qed.

Lemma total_duration_track d self :
  total_duration (track d self) = Int64.wrap_signed (total_duration self + d).
Proof.
  rewrite !total_duration_sum, wrap_signed_add_l. unfold track.
  destruct (Timings.find d (_timings self)) as [c|] eqn:E; cbn [_timings].
  - apply wrap_signed_congr, (sum_ticks_increment d c). exact E.
  - rewrite sum_ticks_insert by exact E. reflexivity.
Qed.

(** X2: after a run of [track] calls on any accumulator, [total_duration()]
    is the earlier total plus the literal sum of the recorded durations,
    duplicates included, as an [int64_t]; from a fresh accumulator and
    without overflow it is that sum. *)
Theorem total_duration_track_all (durations : list nanoseconds) (self : profiler) :
  total_duration (track_all durations self)
  = Int64.wrap_signed (total_duration self + fold_right Z.add 0 durations)
  /\ (Int64.in_int64 (fold_right Z.add 0 durations) ->
      total_duration (track_all durations fresh) = fold_right Z.add 0 durations).
Proof.
  assert (H : forall ds s,
             total_duration (track_all ds s)
             = Int64.wrap_signed (total_duration s + fold_right Z.add 0 ds)).
  { induction ds as [|d ds IH]; intros s; cbn [track_all fold_left fold_right].
    - rewrite Z.add_0_r. symmetry. apply wrap_signed_small.
      rewrite total_duration_sum. apply wrap_signed_range.
    - fold (track_all ds (track d s)). rewrite IH, total_duration_track, wrap_signed_add_l.
      f_equal. lia. }
  split; [apply H|]. intros Hr. rewrite H. change (total_duration fresh) with 0.
  apply wrap_signed_small. exact Hr.
Qed.

Lemma total_duration_track_all_witness :
  Int64.in_int64 (fold_right Z.add 0 [10; 20; 20; 30])
  /\ total_duration (track_all [10; 20; 20; 30] fresh) = fold_right Z.add 0 [10; 20; 20; 30].
Proof.
  assert (H : Int64.in_int64 (fold_right Z.add 0 [10; 20; 20; 30])) by (vm_compute; split; congruence).
  split; [exact H|].
  exact (proj2 (total_duration_track_all [10; 20; 20; 30] fresh) H).
Defined.

(** ** [track]: lookup, invariant, order of recording *)

(** X3: [track(d)] gives a duration that was not a key the count 1, adds one
    to the count of a duration that was a key, and leaves the count of every
    other duration as it was. *)
Theorem track_lookup (d d' : nanoseconds) (self : profiler) :
  (d' <> d ->
   Timings.find d' (_timings (track d self)) = Timings.find d' (_timings self))
  /\ (Timings.find d (_timings self) = None ->
      Timings.find d (_timings (track d self)) = Some 1)
  /\ (forall c, Timings.find d (_timings self) = Some c ->
      Timings.find d (_timings (track d self)) = Some (Int64.wrap_unsigned (c + 1))).
Proof.
  repeat split.
  - intros Hne. rewrite find_track. destruct (Z.eqb_spec d d'); [congruence | reflexivity].
  - intros Hf. rewrite find_track, Z.eqb_refl, Hf. reflexivity.
  - intros c Hf. rewrite find_track, Z.eqb_refl, Hf. reflexivity.
Qed.

Lemma track_lookup_witness :
  20 <> 10
  /\ Timings.find 20 (_timings (track 10 (track_all [20; 20] fresh)))
     = Timings.find 20 (_timings (track_all [20; 20] fresh)).
Proof.
  assert (H : 20 <> 10) by discriminate. split; [exact H|].
  exact (proj1 (track_lookup 10 20 (track_all [20; 20] fresh)) H).
Defined.

Lemma In_sorted_find k c (m : Timings.t) :
  StronglySorted Z.lt (Timings.keys m) -> In (k, c) m -> Timings.find k m = Some c.
Proof.
  induction m as [|[k0 c0] rest IH]; cbn [Timings.keys map fst Timings.find];
    intros Hs Hin; [destruct Hin|].
  inversion Hs as [|? ? Hrest Hall]; subst. destruct Hin as [E|Hin].
  - injection E as -> ->. rewrite Z.eqb_refl. reflexivity.
  - destruct (Z.eqb_spec k0 k) as [->|Hne]; [|exact (IH Hrest Hin)].
    exfalso. rewrite Forall_forall in Hall.
    specialize (Hall k (in_map fst _ _ Hin)). cbn [fst] in Hall. lia.
Qed.

(** X4: every accumulator reached from a fresh one by fewer than [2^64]
    [track] calls keeps its keys strictly ascending and within [int64_t], and
    each entry holds a duration that was recorded, with a count of at least
    one and at most the number of calls. *)
Theorem track_all_invariant (durations : list nanoseconds) :
  Forall Int64.in_int64 durations ->
  Z.of_nat (length durations) < Int64.modulus ->
  Timings.wf (_timings (track_all durations fresh))
  /\ forall k c, In (k, c) (_timings (track_all durations fresh)) ->
       In k durations /\ 1 <= c <= Z.of_nat (length durations).
Proof.
  intros Hr Hlen.
  assert (Hwf : Timings.wf (_timings (track_all durations fresh)))
    by (apply track_all_wf; [exact Hr | exact fresh_wf]).
  split; [exact Hwf|]. intros k c Hin.
  destruct Hwf as (Hs & _).
  pose proof (In_sorted_find k c _ Hs Hin) as Hf.
  rewrite find_track_all in Hf.
  pose proof (count_occ_le_length durations k) as Hle.
  destruct (count_occ Z.eq_dec durations k) as [|n] eqn:En; [discriminate|].
  injection Hf as <-.
  rewrite wrap_unsigned_small by (int64_unfold; lia).
  split; [|lia]. apply (count_occ_In Z.eq_dec). lia.
Qed.

Lemma track_all_invariant_witness :
  Timings.wf (_timings (track_all [30; 10; 20; 20] fresh)).
Proof.
  apply (track_all_invariant [30; 10; 20; 20]).
  - repeat constructor; vm_compute; congruence.
  - reflexivity.
Defined.

Lemma find_None_keys d (m : Timings.t) : ~ In d (Timings.keys m) -> Timings.find d m = None.
Proof.
  intros Hn. destruct (Timings.find d m) eqn:E; [|reflexivity].
  exfalso. apply Hn, find_In_keys. congruence.
Qed.

(** Two sorted maps with the same lookups are the same map. *)
Lemma sorted_find_ext (m1 : Timings.t) : forall m2 : Timings.t,
  StronglySorted Z.lt (Timings.keys m1) -> StronglySorted Z.lt (Timings.keys m2) ->
  (forall d, Timings.find d m1 = Timings.find d m2) -> m1 = m2.
Proof.
  induction m1 as [|[k1 c1] r1 IH]; intros [|[k2 c2] r2] Hs1 Hs2 H.
  - reflexivity.
  - specialize (H k2). cbn [Timings.find] in H. rewrite Z.eqb_refl in H. discriminate.
  - specialize (H k1). cbn [Timings.find] in H. rewrite Z.eqb_refl in H. discriminate.
  - cbn [Timings.keys map fst] in Hs1, Hs2.
    inversion Hs1 as [|? ? Hr1 Ha1]; inversion Hs2 as [|? ? Hr2 Ha2]; subst.
    rewrite Forall_forall in Ha1, Ha2.
    assert (Hk : k1 = k2).
    { pose proof (H k1) as E1. pose proof (H k2) as E2. cbn [Timings.find] in E1, E2.
      rewrite Z.eqb_refl in E1, E2.
      destruct (Z.eqb_spec k2 k1) as [->|Hne]; [reflexivity|].
      destruct (Z.eqb_spec k1 k2) as [->|_]; [reflexivity|].
      assert (In k1 (Timings.keys r2)) by (apply find_In_keys; congruence).
      assert (In k2 (Timings.keys r1)) by (apply find_In_keys; congruence).
      pose proof (Ha2 k1 ltac:(assumption)). pose proof (Ha1 k2 ltac:(assumption)). lia. }
    subst k2.
    assert (Hc : c1 = c2).
    { specialize (H k1). cbn [Timings.find] in H. rewrite Z.eqb_refl in H. congruence. }
    subst c2. f_equal. apply IH; try assumption.
    intros d. specialize (H d). cbn [Timings.find] in H.
    destruct (Z.eqb_spec k1 d) as [->|Hne]; [|exact H].
    assert (N1 : Timings.find d r1 = None).
    { apply find_None_keys. intros Hin. specialize (Ha1 d Hin). lia. }
    assert (N2 : Timings.find d r2 = None).
    { apply find_None_keys. intros Hin. specialize (Ha2 d Hin). lia. }
    congruence.
Qed.

Lemma track_comm a b self :
  StronglySorted Z.lt (Timings.keys (_timings self)) ->
  track a (track b self) = track b (track a self).
Proof.
  intros Hs. destruct (Z.eq_dec a b) as [->|Hab]; [reflexivity|].
  assert (E : _timings (track a (track b self)) = _timings (track b (track a self))).
  { apply sorted_find_ext; try (do 2 apply track_sorted; exact Hs).
    intros d. rewrite !find_track.
    destruct (Z.eqb_spec a b) as [->|_]; [congruence|].
    destruct (Z.eqb_spec b a) as [->|_]; [congruence|].
    destruct (Z.eqb_spec a d) as [->|Had], (Z.eqb_spec b d) as [->|Hbd];
      try congruence; reflexivity. }
  destruct (track a (track b self)) as [m1], (track b (track a self)) as [m2].
  cbn [_timings] in E. congruence.
Qed.

(** X5: the accumulator does not depend on the order in which durations are
    recorded: two runs of [track] calls that are permutations of each other
    lead from the same accumulator to the same accumulator. *)
Theorem track_all_permutation (ds ds' : list nanoseconds) (self : profiler) :
  Permutation ds ds' ->
  StronglySorted Z.lt (Timings.keys (_timings self)) ->
  track_all ds self = track_all ds' self.
Proof.
  intros Hperm. revert self.
  induction Hperm as [|x l l' _ IH|x y l|l l' l'' _ IH1 _ IH2]; intros self Hs.
  - reflexivity.
  - cbn [track_all fold_left]. apply IH, track_sorted, Hs.
  - cbn [track_all fold_left]. rewrite (track_comm x y self Hs). reflexivity.
  - rewrite (IH1 self Hs). apply IH2, Hs.
Qed.

Lemma track_all_permutation_witness :
  track_all [30; 10; 20; 20] fresh = track_all [10; 20; 20; 30] fresh.
Proof.
  apply (track_all_permutation [30; 10; 20; 20] [10; 20; 20; 30] fresh).
  - apply Permutation_cons_app with (l1 := [10; 20; 20]) (l2 := []). reflexivity.
  - constructor.
Defined.

(** X6: recording into any accumulator adds the number of recorded durations
    to [count()], as long as the total stays within [uint64_t]. *)
Theorem count_track_all_any (durations : list nanoseconds) (self : profiler) :
  count self + Z.of_nat (length durations) < Int64.modulus ->
  count (track_all durations self) = count self + Z.of_nat (length durations).
Proof.
  intros Hlt. rewrite count_track_all. apply wrap_unsigned_small.
  pose proof (count_range self) as Hr. int64_unfold. lia.
Qed.

Lemma count_track_all_any_witness :
  count (track_all [10; 20] fresh) + Z.of_nat (length [20; 30]) < Int64.modulus
  /\ count (track_all [20; 30] (track_all [10; 20] fresh))
     = count (track_all [10; 20] fresh) + Z.of_nat (length [20; 30]).
Proof.
  assert (H : count (track_all [10; 20] fresh) + Z.of_nat (length [20; 30]) < Int64.modulus)
    by reflexivity.
  split; [exact H|]. exact (count_track_all_any [20; 30] (track_all [10; 20] fresh) H).
Defined.

(** ** The scope tracker and the store *)

Lemma nth_error_store_update f (st : store) : forall h h',
  nth_error (store_update h f st) h'
  = if Nat.eqb h h' then option_map f (nth_error st h) else nth_error st h'.
Proof.
  induction st as [|p rest IH]; intros h h'.
  - destruct h as [|h], h' as [|h']; cbn [store_update nth_error Nat.eqb option_map];
      try reflexivity.
    destruct (Nat.eqb h h'); reflexivity.
  - destruct h as [|h], h' as [|h']; cbn [store_update nth_error Nat.eqb option_map];
      try reflexivity.
    apply IH.
Qed.

Lemma length_store_update f (st : store) : forall h, length (store_update h f st) = length st.
Proof.
  induction st as [|p rest IH]; intros h; [destruct h; reflexivity|].
  destruct h; cbn [store_update length]; [reflexivity | f_equal; apply IH].
Qed.

(** X7: releasing a tracker that was created at clock reading [start] and not
    cancelled records the elapsed time [now - start] once in the accumulator
    it was taken from, whose [count()] grows by one, and leaves every other
    accumulator of the store as it was; releasing it after [cancel] leaves
    the whole store as it was. *)
Theorem release_records_one_sample (h : handle) (start now : Z) (st : store)
    (self : profiler) :
  nth_error st h = Some self ->
  let released := instance_release (track_scope h start) now st in
  nth_error released h = Some (track (Int64.wrap_signed (now - start)) self)
  /\ option_map count (nth_error released h) = Some (Int64.wrap_unsigned (count self + 1))
  /\ (forall h', h' <> h -> nth_error released h' = nth_error st h')
  /\ length released = length st
  /\ instance_release (cancel (track_scope h start)) now st = st.
Proof.
  intros Hh released. subst released.
  unfold instance_release, track_scope, instance_new. cbn [_parent _start cancel].
  assert (E : nth_error (store_update h (track (Int64.wrap_signed (now - start))) st) h
              = Some (track (Int64.wrap_signed (now - start)) self)).
  { rewrite nth_error_store_update, Nat.eqb_refl, Hh. reflexivity. }
  split; [exact E|]. split; [rewrite E; cbn [option_map]; rewrite count_track; reflexivity|].
  split; [|split; [apply length_store_update | reflexivity]].
  intros h' Hne. rewrite nth_error_store_update.
  destruct (Nat.eqb_spec h h'); [congruence | reflexivity].
Qed.

Lemma release_records_one_sample_witness :
  nth_error [fresh; track 7 fresh] 1%nat = Some (track 7 fresh)
  /\ nth_error (instance_release (track_scope 1%nat 100) 250 [fresh; track 7 fresh]) 1%nat
     = Some (track (Int64.wrap_signed (250 - 100)) (track 7 fresh)).
Proof.
  assert (H : nth_error [fresh; track 7 fresh] 1%nat = Some (track 7 fresh)) by reflexivity.
  split; [exact H|].
  exact (proj1 (release_records_one_sample 1%nat 100 250 [fresh; track 7 fresh]
                  (track 7 fresh) H)).
Defined.

(** ** Edge behaviour of [percentile] and [is_equal] *)

Lemma eqb_zero_inv p : Double.eqb p Double.zero = true -> exists s, p = S754_zero s.
Proof.
  destruct p as [s|s| |s m e]; intros H; try discriminate; [eauto| |];
    destruct s; discriminate.
Qed.

(** X8: on an accumulator with at least two distinct durations,
    [percentile(0.0, true)] returns the minimum recorded duration: its
    normalized position is a zero, which equals [p]. *)
Theorem percentile_by_time_zero_min (self : profiler) (p : Double.double_t) :
  Timings.wf (_timings self) -> (2 <= length (_timings self))%nat ->
  Double.eqb p Double.zero = true ->
  percentile p true self = option_map fst (Timings.begin (_timings self)).
Proof.
  destruct self as [m]. cbn [_timings]. intros (Hs & Hk & _) Hlen Hp.
  destruct m as [|[smallest cs] rest]; [simpl in Hlen; lia|].
  assert (Hrest : rest <> []) by (destruct rest; [simpl in Hlen; lia | discriminate]).
  destruct (rbegin_nonempty rest Hrest) as [[largest cl] Hr].
  assert (Hin : In largest (Timings.keys rest)).
  { apply rbegin_In in Hr. apply (in_map fst) in Hr. exact Hr. }
  assert (Hlt : smallest < largest).
  { simpl in Hs. inversion Hs as [|? ? _ Hall]; subst.
    rewrite Forall_forall in Hall. exact (Hall largest Hin). }
  rewrite Forall_forall in Hk.
  pose proof (wrap_signed_sub_nonzero smallest largest
                (Hk smallest ltac:(simpl; auto)) (Hk largest ltac:(simpl; auto)) Hlt) as Hnz.
  pose proof (wrap_signed_range (largest - smallest)) as Hvr.
  unfold percentile. cbn [_timings Timings.begin hd_error option_map fst].
  rewrite rbegin_cons by exact Hrest. rewrite Hr. cbv zeta.
  cbn [by_time_loop fst]. unfold by_time_accepts. rewrite Z.sub_diag.
  change (Int64.wrap_signed 0) with 0.
  destruct (of_Z_finite (Int64.wrap_signed (largest - smallest)) Hnz) as (s & mv & ev & Ev);
    [int64_unfold; lia|].
  rewrite Ev. destruct (eqb_zero_inv p Hp) as [sp ->].
  reflexivity.
Qed.

Lemma percentile_by_time_zero_min_witness :
  percentile Double.zero true (track_all [30; 10; 20; 20] fresh)
  = option_map fst (Timings.begin (_timings (track_all [30; 10; 20; 20] fresh))).
Proof.
  apply (percentile_by_time_zero_min (track_all [30; 10; 20; 20] fresh) Double.zero).
  - apply track_all_wf; [|exact fresh_wf]. repeat constructor; vm_compute; congruence.
  - vm_compute. lia.
  - reflexivity.
Defined.

(** X9: whatever [p] and the mode, a value returned by [percentile] is the
    sentinel of -1 nanosecond or one of the recorded durations. *)
Theorem percentile_sentinel_or_recorded (self : profiler) (p : Double.double_t)
    (by_time : bool) (d : nanoseconds) :
  percentile p by_time self = Some d ->
  d = -1 \/ In d (Timings.keys (_timings self)).
Proof.
  unfold percentile. destruct by_time.
  - destruct (Timings.begin (_timings self)) as [[smallest cs]|]; [|discriminate].
    destruct (Timings.rbegin (_timings self)) as [[largest cl]|]; [|discriminate].
    cbv zeta.
    destruct (by_time_loop smallest (Int64.wrap_signed (largest - smallest)) p (_timings self))
      as [d'|] eqn:El; intros [= <-]; [right | left; reflexivity].
    destruct (by_time_loop_Some _ _ _ _ _ El) as (pre & kv & post & E & <- & _).
    rewrite E, keys_app. apply in_or_app. right. left. reflexivity.
  - destruct (Double.eqb p Double.zero).
    + destruct (_timings self) as [|[k c] rest]; [discriminate|].
      intros [= <-]. right. left. reflexivity.
    + destruct (by_call_loop (count self) p 0 (_timings self)) as [d'|] eqn:El;
        intros [= <-]; [right | left; reflexivity].
      exact (by_call_loop_In _ _ _ _ _ El).
Qed.

Lemma percentile_sentinel_or_recorded_witness :
  percentile Double.half true (track_all [10; 20; 20; 30] fresh) = Some 20
  /\ (20 = -1 \/ In 20 (Timings.keys (_timings (track_all [10; 20; 20; 30] fresh)))).
Proof.
  assert (H : percentile Double.half true (track_all [10; 20; 20; 30] fresh) = Some 20)
    by reflexivity.
  split; [exact H|].
  exact (percentile_sentinel_or_recorded (track_all [10; 20; 20; 30] fresh) Double.half true 20 H).
Defined.

Lemma SFcompare_nan_r a : SFcompare a S754_nan = None.
Proof. destruct a; reflexivity. Qed.

Lemma is_equal_nan_r a c : is_equal a Double.nan c = false.
Proof.
  unfold is_equal, Double.eqb, Double.geb, Double.leb, SFeqb, SFleb.
  rewrite SFcompare_nan_r. reflexivity.
Qed.

Lemma by_call_loop_nan calls (m : Timings.t) : forall a,
  by_call_loop calls Double.nan a m = None.
Proof.
  induction m as [|kv rest IH]; intros a; [reflexivity|].
  cbn [by_call_loop]. unfold by_call_accepts.
  rewrite is_equal_nan_l. unfold Double.ltb, SFltb. rewrite SFcompare_nan_r.
  cbn [orb andb]. apply IH.
Qed.

(** X10: a NaN passed as [p] makes every comparison of both scans false:
    [percentile] returns the sentinel of -1 nanosecond, by call on every
    accumulator and by time on every non-empty one. *)
Theorem percentile_nan (self : profiler) :
  percentile Double.nan false self = Some (-1)
  /\ (_timings self <> [] -> percentile Double.nan true self = Some (-1)).
Proof.
  split.
  - unfold percentile. cbn [Double.eqb SFeqb SFcompare Double.nan].
    rewrite by_call_loop_nan. reflexivity.
  - intros Hne. unfold percentile.
    destruct (rbegin_nonempty _ Hne) as [[largest cl] Hr]. rewrite Hr.
    destruct (_timings self) as [|[smallest cs] rest] eqn:Em; [congruence|].
    cbn [Timings.begin hd_error]. cbv zeta.
    assert (Hloop : by_time_loop smallest (Int64.wrap_signed (largest - smallest)) Double.nan
                      ((smallest, cs) :: rest) = None).
    { apply by_time_loop_None. intros d _. unfold by_time_accepts.
      rewrite is_equal_nan_r. unfold Double.gtb, SFltb. reflexivity. }
    rewrite Hloop. reflexivity.
Qed.

Lemma percentile_nan_witness :
  _timings (track_all [10; 20; 20; 30] fresh) <> []
  /\ percentile Double.nan true (track_all [10; 20; 20; 30] fresh) = Some (-1).
Proof.
  assert (H : _timings (track_all [10; 20; 20; 30] fresh) <> []) by (vm_compute; discriminate).
  split; [exact H|]. exact (proj2 (percentile_nan (track_all [10; 20; 20; 30] fresh)) H).
Defined.

Lemma SFcompare_refl a : a <> S754_nan -> SFcompare a a = Some Eq.
Proof.
  destruct a as [s|s| |s m e]; intros Hn; try congruence; simpl.
  - reflexivity.
  - destruct s; reflexivity.
  - change (PosDef.Pos.compare_cont Eq m m) with (Pos.compare m m).
    rewrite Z.compare_refl, Pos.compare_refl. destruct s; reflexivity.
Qed.

(** X11: [is_equal(a, b, c)] is false as soon as [a] or [b] is a NaN, and
    [is_equal(a, a, c)] is true for every other [a], whatever the tolerance
    [c], a NaN included. *)
Theorem is_equal_nan_and_refl (a b c : Double.double_t) :
  is_equal Double.nan b c = false
  /\ is_equal a Double.nan c = false
  /\ (a <> Double.nan -> is_equal a a c = true).
Proof.
  split; [apply is_equal_nan_l|]. split; [apply is_equal_nan_r|].
  intros Ha. unfold is_equal, Double.eqb, SFeqb. rewrite (SFcompare_refl a Ha). reflexivity.
Qed.

Lemma is_equal_nan_and_refl_witness :
  Double.half <> Double.nan /\ is_equal Double.half Double.half Double.nan = true.
Proof.
  assert (H : Double.half <> Double.nan) by discriminate.
  split; [exact H|].
  exact (proj2 (proj2 (is_equal_nan_and_refl Double.half Double.zero Double.nan)) H).
Defined.
